(** * tariffs_scraper.py: extraction, deduplication, stance and theme summary

    A shallow embedding of the pure and page-reading parts of
    [tariffs_scraper.py], followed by the properties of its
    specification.

    Conventions of the model.
    - A Python [str] is a list of Unicode code points ([list N]); [len],
      slicing and [+] are [length], [take] and [++].
    - The character classes of the Python runtime ([str.isspace] and the
      regular expression classes [\s] and [\w], and [str.lower]) are the
      fields of the class [CharDB]; nothing below depends on their tables.
      [ascii_db] gives them on the ASCII range, to run the model.
    - A Python [int] is a [Z]. The compound score of the polarity scorer is
      a rational [Q] and [+ 0.20], [- 0.20] and the comparisons with [0.2]
      are exact. The quotient [100*c/total] is taken exactly before
      [math.floor], that is [Z.div]; [floor_div_float] below checks that the
      binary64 quotient has the same floor on the totals a run can reach.
    - An awaited page operation either returns or raises ([outcome]). *)

From Stdlib Require Import ZArith QArith Lia Lqa Ascii String DecimalString.
From Stdlib Require Import Uint63 PrimFloat.
From stdpp Require Import base decidable option list sorting sets gmap.

Close Scope Q_scope.
Open Scope nat_scope.

(** ** Strings *)

Abbreviation pystr := (list N).

Definition str (s : string) : pystr := N_of_ascii <$> list_ascii_of_string s.

Definition SP : N := 32.   (* " " *)
Definition AT : N := 64.   (* "@" *)
Definition COLON : N := 58.   (* ":" *)

Class CharDB := {
  isspace : N → bool;        (* str.isspace, and \s of re on str *)
  isword : N → bool;         (* \w of re on str *)
  lower : pystr → pystr      (* str.lower *)
}.

Definition between (lo hi c : N) : bool := ((lo <=? c) && (c <=? hi))%N.

Definition ascii_isspace (c : N) : bool := between 9 13 c || between 28 32 c.

Definition ascii_isword (c : N) : bool :=
  between 48 57 c || between 65 90 c || between 97 122 c || (c =? 95)%N.

Definition ascii_lower (s : pystr) : pystr :=
  (λ c, if between 65 90 c then (c + 32)%N else c) <$> s.

Definition ascii_db : CharDB :=
  {| isspace := ascii_isspace; isword := ascii_isword; lower := ascii_lower |}.

(** [p] is a prefix of [s]. *)
Fixpoint startswith (s p : pystr) : bool :=
  match p, s with
  | [], _ => true
  | a :: p', b :: s' => (a =? b)%N && startswith s' p'
  | _ :: _, [] => false
  end.

(** [key in s]: substring test. *)
Fixpoint str_in (key s : pystr) : bool :=
  startswith s key || match s with [] => false | _ :: s' => str_in key s' end.

(** [any(k in t for k in keys)]. *)
Definition any_in (keys : list pystr) (t : pystr) : bool :=
  existsb (λ k, str_in k t) keys.

(** [sep.join(parts)]. *)
Fixpoint join (sep : pystr) (parts : list pystr) : pystr :=
  match parts with
  | [] => []
  | [x] => x
  | x :: rest => x ++ sep ++ join sep rest
  end.

(** [str(n)] for an integer, as the f-string renders it. *)
Definition str_of_int (n : Z) : pystr := str (NilZero.string_of_int (Z.to_int n)).

Section Text.
Context `{CharDB}.

Fixpoint lstrip (s : pystr) : pystr :=
  match s with
  | c :: s' => if isspace c then lstrip s' else s
  | [] => []
  end.

Definition rstrip (s : pystr) : pystr := reverse (lstrip (reverse s)).

(** [s.strip()] *)
Definition strip (s : pystr) : pystr := rstrip (lstrip s).

(** [re.sub(r"\s+", " ", s)], scanning left to right: [in_run] says that
    the character before was whitespace, so that the run it belongs to has
    already been replaced. *)
Fixpoint sub_ws_from (in_run : bool) (s : pystr) : pystr :=
  match s with
  | [] => []
  | c :: s' =>
      if isspace c
      then (if in_run then sub_ws_from true s' else SP :: sub_ws_from true s')
      else c :: sub_ws_from false s'
  end.

Definition re_sub_ws (s : pystr) : pystr := sub_ws_from false s.

(** The longest run of at most [n] word characters at the start of [s]
    (greedy [\w{0,n}]). *)
Fixpoint word_run (n : nat) (s : pystr) : pystr :=
  match n, s with
  | S n', c :: s' => if isword c then c :: word_run n' s' else []
  | _, _ => []
  end.

(** [re.search(r"@\w{1,15}", s)]: the leftmost match, if any ([m.group(0)]). *)
Fixpoint re_search_handle (s : pystr) : option pystr :=
  match s with
  | [] => None
  | c :: s' =>
      if (c =? AT)%N
      then match word_run 15 s' with
           | [] => re_search_handle s'
           | w => Some (AT :: w)
           end
      else re_search_handle s'
  end.
End Text.

(** ** Keyword tables *)

Definition POS_TARIFF_HINTS : list pystr :=
  str <$> ["protect"; "protection"; "protecting"; "fair trade"; "bring back jobs";
           "onshore"; "reshore"; "domestic"; "manufacturing"; "counter china";
           "stand up to china"; "level playing field"; "good"; "win"; "works"]%string.

Definition NEG_TARIFF_HINTS : list pystr :=
  str <$> ["inflation"; "prices"; "price hike"; "cost"; "costs"; "tax on consumers";
           "trade war"; "retaliation"; "tariff war"; "smoot"; "hawley"; "inefficient";
           "jobs lost"; "hurts"; "burden"; "bad"; "stupid"]%string.

(** The dict [THEMES], in its declaration (insertion) order. *)
Definition THEMES : list (pystr * list pystr) :=
  (λ e : string * list string, (str e.1, str <$> e.2)) <$>
  [ ("inflation/prices", ["inflation"; "prices"; "price"; "expensive"; "cost"; "costs"]);
    ("china/geopolitics", ["china"; "beijing"; "ccp"; "xi"; "chinese"]);
    ("jobs/manufacturing", ["jobs"; "manufacturing"; "factory"; "factories"; "onshore";
                            "reshore"; "made in"]);
    ("trade war/retaliation", ["trade war"; "tariff war"; "retaliation"; "retaliate";
                               "tit for tat"]);
    ("farmers/agriculture", ["farmers"; "agriculture"; "soy"; "corn"; "wheat"; "ranchers"]);
    ("consumers/smb", ["consumers"; "consumer"; "small business"; "smb"; "main street"]);
    ("national security", ["national security"; "security"; "strategic"; "defense";
                           "supply chain"]) ]%string.

Record Tweet := mkTweet { handle : pystr; text : pystr }.

(** ** Stance classifier *)

Inductive Stance := positive_stance | negative_stance | neutral_stance.

Definition stance_str (s : Stance) : pystr :=
  match s with
  | positive_stance => str "positive"
  | negative_stance => str "negative"
  | neutral_stance => str "neutral"
  end.

(** The polarity scorer: only [polarity_scores(text)["compound"]] is used. *)
Record SentimentIntensityAnalyzer := { polarity_compound : pystr → Q }.

Definition classify_stance `{CharDB} (text : pystr) (sia : SentimentIntensityAnalyzer)
  : Stance :=
  let t := lower text in
  let comp := polarity_compound sia text in
  let comp := if any_in POS_TARIFF_HINTS t then (comp + 0.20)%Q else comp in
  let comp := if any_in NEG_TARIFF_HINTS t then (comp - 0.20)%Q else comp in
  if Qle_bool 0.2 comp then positive_stance
  else if Qle_bool comp (-0.2) then negative_stance
  else neutral_stance.

(** ** Theme ranker *)

(** [counts[theme] += 1] on a dict kept in insertion order. [top_themes]
    builds [counts] from the keys of [THEMES], so the key is present. *)
Fixpoint dict_incr (theme : pystr) (counts : list (pystr * Z)) : list (pystr * Z) :=
  match counts with
  | [] => []
  | (k, v) :: rest =>
      if decide (k = theme) then (k, (v + 1)%Z) :: rest else (k, v) :: dict_incr theme rest
  end.

(** [counts[t]] *)
Fixpoint dict_get (t : pystr) (counts : list (pystr * Z)) : option Z :=
  match counts with
  | [] => None
  | (k, v) :: rest => if decide (k = t) then Some v else dict_get t rest
  end.

(** [sorted(items, key=lambda kv: kv[1], reverse=True)]: a stable sort, the
    largest count first; items of equal count keep their order. *)
Fixpoint insert_desc (x : pystr * Z) (l : list (pystr * Z)) : list (pystr * Z) :=
  match l with
  | [] => [x]
  | y :: l' => if (x.2 <? y.2)%Z then y :: insert_desc x l' else x :: l
  end.

Definition sorted_desc (items : list (pystr * Z)) : list (pystr * Z) :=
  foldr insert_desc [] items.

(** [l[:k]] for a Python integer [k]. *)
Definition slice_to {A} (l : list A) (k : Z) : list A :=
  if (0 <=? k)%Z then take (Z.to_nat k) l
  else take (length l - Z.to_nat (- k)) l.

(** The two nested loops of [top_themes] over a theme table. *)
Definition count_text (themes : list (pystr * list pystr)) (low : pystr)
    (counts : list (pystr * Z)) : list (pystr * Z) :=
  foldl (λ counts e, if any_in e.2 low then dict_incr e.1 counts else counts)
        counts themes.

Definition count_texts `{CharDB} (themes : list (pystr * list pystr)) (texts : list pystr)
    (counts : list (pystr * Z)) : list (pystr * Z) :=
  foldl (λ counts tx, count_text themes (lower tx) counts) counts texts.

(** The local variable [ranked] of [top_themes]. *)
Definition ranked_themes `{CharDB} (texts : list pystr) : list pystr :=
  let counts := (λ e, (e.1, 0%Z)) <$> THEMES in
  let counts := count_texts THEMES texts counts in
  omap (λ kv, match dict_get kv.1 counts with
              | Some c => if (c >? 0)%Z then Some kv.1 else None
              | None => None
              end) (sorted_desc counts).

Definition top_themes `{CharDB} (texts : list pystr) (k : Z) : list pystr :=
  let ranked := ranked_themes texts in
  match ranked with
  | [] => []
  | _ => slice_to ranked k
  end.

(** ** The rendered page *)

(** An awaited page operation returns a value or raises. *)
Inductive outcome (A : Type) := Returned (a : A) | Raised.
Arguments Returned {A} a.
Arguments Raised {A}.

#[global] Instance outcome_ret : MRet outcome := λ A a, Returned a.
#[global] Instance outcome_bind : MBind outcome := λ A B f m,
  match m with Returned a => f a | Raised => Raised end.
#[global] Instance outcome_fmap : FMap outcome := λ A B f m,
  match m with Returned a => Returned (f a) | Raised => Raised end.

(** One element of [page.locator("article:has(div[lang])")]. *)
Record Article := mkArticle {
  art_chunks : outcome (list pystr);   (* art.locator("div[lang]").all_inner_texts() *)
  user_count : outcome nat;            (* art.locator("div[data-testid='User-Name']").first.count() *)
  user_inner_text : outcome pystr;     (* ... .first.inner_text() *)
  art_inner_text : outcome pystr       (* art.inner_text() *)
}.

Record Page := mkPage {
  articles : list Article;             (* page.locator("article:has(div[lang])") *)
  text_nodes : list (outcome pystr)    (* page.locator("div[lang]"): inner_text() of each *)
}.

Definition UNKNOWN : pystr := str "@unknown".

(** The local variables [tweets] and [seen] of [scrape_tweets]. *)
Record Scrape := mkScrape { tweets : list Tweet; seen : gset pystr }.

(** [for x in items: body], where the body may raise. *)
Fixpoint for_each {A S} (body : S → A → outcome S) (items : list A) (st : S) : outcome S :=
  match items with
  | [] => Returned st
  | x :: rest => st' ← body st x; for_each body rest st'
  end.

(** [if key in seen: continue; seen.add(key); tweets.append(Tweet(...))] *)
Definition emit (key : pystr) (t : Tweet) (st : Scrape) : Scrape :=
  if bool_decide (key ∈ seen st) then st
  else {| tweets := tweets st ++ [t]; seen := {[key]} ∪ seen st |}.

(** The body of the [try] block, as a computation on the variable [handle]
    that may raise: a state and exception monad. *)
Definition HandleM (A : Type) : Type := pystr → pystr * outcome A.

Definition hret {A} (a : A) : HandleM A := λ h, (h, Returned a).
Definition hbind {A B} (m : HandleM A) (f : A → HandleM B) : HandleM B :=
  λ h, match m h with
       | (h', Returned a) => f a h'
       | (h', Raised) => (h', Raised)
       end.
Definition await {A} (o : outcome A) : HandleM A := λ h, (h, o).
Definition get_handle : HandleM pystr := λ h, (h, Returned h).
Definition set_handle (m : pystr) : HandleM unit := λ _, (m, Returned ()).

Notation "x <~ m ;; k" := (hbind m (λ x, k))
  (at level 100, m at next level, right associativity).

Section Extractor.
Context `{CharDB}.

Definition handle_try (art : Article) : HandleM unit :=
  n <~ await (user_count art);;
  _ <~ (if 0 <? n
        then raw <~ await (user_inner_text art);;
             match re_search_handle (strip raw) with
             | Some m => set_handle m
             | None => hret ()
             end
        else hret ());;
  h <~ get_handle;;
  if decide (h = UNKNOWN)
  then raw_all <~ await (art_inner_text art);;
       match re_search_handle (strip raw_all) with
       | Some m2 => set_handle m2
       | None => hret ()
       end
  else hret ().

(** [handle = "@unknown"; try: ... except Exception: pass] *)
Definition extract_handle (art : Article) : pystr := (handle_try art UNKNOWN).1.

(** Body of the fallback loop, for one text fragment. *)
Definition fallback_step (st : Scrape) (node : outcome pystr) : outcome Scrape :=
  raw ← node;
  let text := strip raw in
  let text := re_sub_ws text in
  if length text <? 20 then mret st
  else
    let key := take 80 text in
    mret (emit key (mkTweet UNKNOWN text) st).

(** Body of the structured loop, for one container. *)
Definition structured_step (st : Scrape) (art : Article) : outcome Scrape :=
  chunks ← art_chunks art;
  match chunks with
  | [] => mret st
  | _ =>
      let text := join [SP] (strip <$> chunks) in
      let text := strip (re_sub_ws text) in
      if length text <? 20 then mret st
      else
        let handle := extract_handle art in
        let key := handle ++ str "::" ++ take 80 text in
        mret (emit key (mkTweet handle text) st)
  end.

Definition scrape_fallback (page : Page) : outcome (list Tweet) :=
  let n := length (text_nodes page) `min` 200 in
  tweets <$> for_each fallback_step (take n (text_nodes page)) (mkScrape [] ∅).

Definition scrape_structured (page : Page) : outcome (list Tweet) :=
  let count := length (articles page) in
  tweets <$> for_each structured_step (take (count `min` 180) (articles page))
                      (mkScrape [] ∅).

Definition scrape_tweets (page : Page) : outcome (list Tweet) :=
  let count := length (articles page) in
  if count =? 0 then scrape_fallback page else scrape_structured page.
End Extractor.

(** ** Content loader *)

(** The browser session, as far as the page content goes: [goto url] is the
    page after the navigation and the settle delay, [page_down p] the page
    after one PageDown key press and its delay. *)
Record Browser := mkBrowser { goto : pystr → Page; page_down : Page → Page }.

Definition desktop : pystr := str "https://x.com/search?q=%23Tariffs&src=typed_query&f=live".
Definition mobile : pystr :=
  str "https://mobile.twitter.com/search?q=%23Tariffs&src=typed_query&f=live".

(** [await page.locator("div[lang]").count()] *)
Definition marker_count (page : Page) : nat := length (text_nodes page).

Definition load_results (b : Browser) : Page :=
  let page := goto b desktop in
  let page := if marker_count page =? 0 then goto b mobile else page in
  Nat.iter 12 (page_down b) page.

(** ** Aggregator and reporter *)

(** The dict [counts] of [main]: its three keys are always present. *)
Record Counts := mkCounts { n_positive : Z; n_negative : Z; n_neutral : Z }.

(** [counts[stance] += 1] *)
Definition count_stance (s : Stance) (c : Counts) : Counts :=
  match s with
  | positive_stance => mkCounts (n_positive c + 1) (n_negative c) (n_neutral c)
  | negative_stance => mkCounts (n_positive c) (n_negative c + 1) (n_neutral c)
  | neutral_stance => mkCounts (n_positive c) (n_negative c) (n_neutral c + 1)
  end%Z.

Record Classified := mkClassified { c_handle : pystr; c_text : pystr; c_stance : Stance }.

(** The loop [for t in tweets] of [main], on [(classified, counts)]. *)
Definition classify_all `{CharDB} (sia : SentimentIntensityAnalyzer) (tweets : list Tweet)
  : list Classified * Counts :=
  foldl (λ acc t,
           let stance := classify_stance (text t) sia in
           (acc.1 ++ [mkClassified (handle t) (text t) stance], count_stance stance acc.2))
        ([], mkCounts 0 0 0) tweets.

Record Percentages := mkPct { pos_pct : Z; neg_pct : Z; neu_pct : Z }.

(** [math.floor(a / b)] for integers [a] and [b > 0], the quotient exact. *)
Definition floor_div (a b : Z) : Z := (a / b)%Z.

Definition percentages (counts : Counts) : Percentages :=
  let total := (1 `max` (n_positive counts + n_negative counts + n_neutral counts))%Z in
  let pos := floor_div (100 * n_positive counts) total in
  let neg := floor_div (100 * n_negative counts) total in
  let neu := (100 - pos - neg)%Z in
  mkPct pos neg neu.

Inductive Skew := skew_negative | skew_positive | skew_mixed.

Definition skew_str (s : Skew) : pystr :=
  match s with
  | skew_negative => str "negative"
  | skew_positive => str "positive"
  | skew_mixed => str "mixed"
  end.

Definition skew_of (counts : Counts) : Skew :=
  if (n_negative counts >? n_positive counts `max` n_neutral counts)%Z then skew_negative
  else if (n_positive counts >? n_negative counts `max` n_neutral counts)%Z then skew_positive
  else skew_mixed.

Definition summary_of (skew : Skew) (p : Percentages) (themes : list pystr) : pystr :=
  let themes_str :=
    match themes with [] => str "mixed themes" | _ => join (str " and ") themes end in
  str "On #Tariffs, tweets skew " ++ skew_str skew ++ str " (" ++
  str_of_int (neg_pct p) ++ str "% negative, " ++
  str_of_int (pos_pct p) ++ str "% positive, " ++
  str_of_int (neu_pct p) ++ str "% neutral), with frequent mentions of " ++
  themes_str ++ str ".".

(** What a completed run prints and writes: the collected-count line, the
    summary sentence, the counts, and the rows given to [csv.writer]. *)
Record Report := mkReport {
  collected : nat;
  summary : pystr;
  final_counts : Counts;
  csv_rows : list (list pystr)
}.

Definition csv_header : list pystr := [str "handle"; str "text"; str "stance"].

Definition csv_row (r : Classified) : list pystr :=
  [c_handle r; c_text r; stance_str (c_stance r)].

(** How [main] ends, from [load_results] on. *)
Inductive Run :=
  | Completed (r : Report)
  | ContentUnavailable     (* the RuntimeError raised by [main] itself *)
  | PageError.             (* an exception of a page operation, not caught *)

Definition main `{CharDB} (sia : SentimentIntensityAnalyzer) (b : Browser) : Run :=
  let page := load_results b in
  if marker_count page =? 0 then ContentUnavailable
  else
    match scrape_tweets page with
    | Raised => PageError
    | Returned tweets =>
        let '(classified, counts) := classify_all sia tweets in
        let p := percentages counts in
        let themes := top_themes (c_text <$> classified) 2 in
        let skew := skew_of counts in
        Completed {| collected := length tweets;
                     summary := summary_of skew p themes;
                     final_counts := counts;
                     csv_rows := csv_header :: (csv_row <$> classified) |}
    end.

(** ** Notions used to state the properties *)

(** [q] is the floor of the exact quotient [a / b], for [b > 0]. *)
Definition is_floor (q a b : Z) : Prop := (q * b ≤ a < (q + 1) * b)%Z.

(** The score after the two keyword adjustments, as the specification
    words them: each one is applied or not, and they add up. *)
Definition adjusted_score `{CharDB} (text : pystr) (sia : SentimentIntensityAnalyzer) : Q :=
  (polarity_compound sia text
   + (if any_in POS_TARIFF_HINTS (lower text) then 0.20 else 0)
   - (if any_in NEG_TARIFF_HINTS (lower text) then 0.20 else 0))%Q.

(** The stance of a score with no adjustment: the thresholds alone. *)
Definition stance_of_score (score : Q) : Stance :=
  if Qle_bool 0.2 score then positive_stance
  else if Qle_bool score (-0.2) then negative_stance
  else neutral_stance.

(** The keywords of the theme called [t] in the Theme Table. *)
Fixpoint keys_of (themes : list (pystr * list pystr)) (t : pystr) : option (list pystr) :=
  match themes with
  | [] => None
  | e :: rest => if decide (e.1 = t) then Some e.2 else keys_of rest t
  end.

(** How many of the texts, lowercased, contain at least one of [keys]. *)
Fixpoint match_count `{CharDB} (keys : list pystr) (texts : list pystr) : Z :=
  match texts with
  | [] => 0
  | tx :: rest => ((if any_in keys (lower tx) then 1 else 0) + match_count keys rest)%Z
  end.

(** The match count of the theme called [t] over the texts (0 for a name
    that is not a theme). *)
Definition theme_count `{CharDB} (texts : list pystr) (t : pystr) : Z :=
  match keys_of THEMES t with
  | Some keys => match_count keys texts
  | None => 0
  end.

(** Position of a name in a list of names (its length when absent). *)
Fixpoint index_of (t : pystr) (names : list pystr) : nat :=
  match names with
  | [] => 0
  | x :: rest => if decide (x = t) then 0 else S (index_of t rest)
  end.

(** Declaration order of the Theme Table. *)
Definition decl_index (t : pystr) : nat := index_of t THEMES.*1.

(** [a] is ranked before [b]: a larger count, or the same count and
    declared earlier. *)
Definition ranks_before `{CharDB} (texts : list pystr) (a b : pystr) : Prop :=
  (theme_count texts b < theme_count texts a)%Z ∨
  (theme_count texts a = theme_count texts b ∧ decl_index a < decl_index b).

(** The quotient [a / b] as Python computes it on small integers: the
    binary64 quotient of the two integers. [floor_is q x] says that the float
    [x] lies in [[q, q+1)], that is, that [math.floor(x)] is [q]. Used only
    to compare with [floor_div] on the counts that a run can reach. *)
Definition float_of_int (a : Z) : float := PrimFloat.of_uint63 (Uint63.of_Z a).

Definition true_div (a b : Z) : float := PrimFloat.div (float_of_int a) (float_of_int b).

Definition floor_is (q : Z) (x : float) : bool :=
  PrimFloat.leb (float_of_int q) x && PrimFloat.ltb x (float_of_int (q + 1)).

(** The same check on machine integers, and its run over all the totals up
    to [n] and all the counts up to the total. *)
Definition floor_ok (total c : int) : bool :=
  let a := (100 * c)%uint63 in
  let q := (a / total)%uint63 in
  let x := PrimFloat.div (PrimFloat.of_uint63 a) (PrimFloat.of_uint63 total) in
  PrimFloat.leb (PrimFloat.of_uint63 q) x
  && PrimFloat.ltb x (PrimFloat.of_uint63 (q + 1)%uint63).

Fixpoint ints_from (n : nat) (i : int) : list int :=
  match n with
  | O => []
  | S n' => i :: ints_from n' (i + 1)%uint63
  end.

Definition floor_ok_upto (n : nat) : bool :=
  let cs := ints_from (S n) 0%uint63 in
  forallb (λ total, forallb (λ c, negb (Uint63.leb c total) || floor_ok total c) cs)
          (ints_from n 1%uint63).

(** The order that a stable sort by descending count produces on dict items
    whose input order is [idx]. *)
Definition item_before (idx : pystr → nat) (x y : pystr * Z) : Prop :=
  (y.2 < x.2)%Z ∨ (x.2 = y.2 ∧ idx x.1 < idx y.1).

(** What the inner loop of [top_themes] adds to the entry of [t] for one
    lowercased text, and what the two loops add over all the texts. *)
Fixpoint hits (themes : list (pystr * list pystr)) (low : pystr) (t : pystr) : Z :=
  match themes with
  | [] => 0
  | e :: rest =>
      ((if decide (e.1 = t) then (if any_in e.2 low then 1 else 0) else 0)
       + hits rest low t)%Z
  end.

Fixpoint total_hits `{CharDB} (themes : list (pystr * list pystr)) (texts : list pystr)
    (t : pystr) : Z :=
  match texts with
  | [] => 0
  | tx :: rest => (hits themes (lower tx) t + total_hits themes rest t)%Z
  end.

(** Whitespace-normalized text: every whitespace character is a single
    [" "] that is neither first nor last and whose successor is not
    whitespace (so no run of whitespace is left, and none leads or trails). *)
Definition ws_normalized `{CharDB} (s : pystr) : Prop :=
  ∀ i c, s !! i = Some c → isspace c = true →
    c = SP ∧ 0 < i ∧ ∃ c', s !! S i = Some c' ∧ isspace c' = false.

(** The same, as a check: each whitespace character is [" "] and is followed
    by a character that is not whitespace, or by the end when [at_end]. *)
Fixpoint spaces_ok `{CharDB} (at_end : bool) (s : pystr) : bool :=
  match s with
  | [] => true
  | c :: s' =>
      (if isspace c
       then (c =? SP)%N && match s' with c' :: _ => negb (isspace c') | [] => at_end end
       else true)
      && spaces_ok at_end s'
  end.

Definition is_normalized `{CharDB} (s : pystr) : bool :=
  match s with c :: _ => negb (isspace c) | [] => true end && spaces_ok false s.

(** The dedup key of the specification: the author handle and the first 80
    characters of the normalized text. *)
Definition dedup_key (t : Tweet) : pystr * pystr := (handle t, take 80 (text t)).

(** Keep the first candidate of each dedup key, in traversal order; [seen]
    holds the keys met so far. *)
Fixpoint dedup_first (seen : list (pystr * pystr)) (cands : list Tweet) : list Tweet :=
  match cands with
  | [] => []
  | t :: rest =>
      if decide (dedup_key t ∈ seen) then dedup_first seen rest
      else t :: dedup_first (dedup_key t :: seen) rest
  end.

(** The post candidate of one text fragment (fallback mode) and of one
    container (structured mode): the author and the normalized text, when
    the text has at least 20 characters. *)
Definition fallback_candidate `{CharDB} (node : outcome pystr) : outcome (option Tweet) :=
  raw ← node;
  let text := re_sub_ws (strip raw) in
  mret (if length text <? 20 then None else Some (mkTweet UNKNOWN text)).

Definition structured_candidate `{CharDB} (art : Article) : outcome (option Tweet) :=
  chunks ← art_chunks art;
  match chunks with
  | [] => mret None
  | _ =>
      let text := strip (re_sub_ws (join [SP] (strip <$> chunks))) in
      mret (if length text <? 20 then None else Some (mkTweet (extract_handle art) text))
  end.

(** The candidates of a list of items, in order; a read that raises aborts. *)
Fixpoint collect {A} (cand : A → outcome (option Tweet)) (items : list A)
  : outcome (list Tweet) :=
  match items with
  | [] => Returned []
  | x :: rest =>
      c ← cand x; cs ← collect cand rest;
      mret (match c with Some t => t :: cs | None => cs end)
  end.

(** The post candidates of a page, in traversal order. *)
Definition candidates `{CharDB} (page : Page) : outcome (list Tweet) :=
  if length (articles page) =? 0
  then collect fallback_candidate (take 200 (text_nodes page))
  else collect structured_candidate (take 180 (articles page)).

(** The strings that the two loops put in [seen]. *)
Definition fallback_seen_key (t : Tweet) : pystr := take 80 (text t).
Definition structured_seen_key (t : Tweet) : pystr :=
  handle t ++ str "::" ++ take 80 (text t).

(** The [try] block of the handle extraction raised. *)
Definition handle_faulted `{CharDB} (art : Article) : Prop :=
  (handle_try art UNKNOWN).2 = Raised.

(** Emitting a list of candidates in order, under the key [enc]. *)
Definition emit_all (enc : Tweet → pystr) (cs : list Tweet) (st : Scrape) : Scrape :=
  foldl (λ st t, emit (enc t) t st) st cs.

(** ** Configuration *)

(** [os.getenv], after [load_dotenv]. *)
Abbreviation Env := (pystr → option pystr).

(** How the start-up of [main] ends: it goes on, or [sys.exit(status)] after
    a line on the error stream. *)
Inductive Startup (A : Type) := Ready (a : A) | SysExit (status : Z) (stderr : pystr).
Arguments Ready {A} a.
Arguments SysExit {A} status stderr.

#[global] Instance startup_ret : MRet Startup := λ A a, Ready a.
#[global] Instance startup_bind : MBind Startup := λ A B f m,
  match m with Ready a => f a | SysExit st msg => SysExit st msg end.

Definition must (env : Env) (name : pystr) : Startup pystr :=
  let v := env name in
  match v with
  | Some ((_ :: _) as v) => Ready v
  | _ => SysExit 1 (str "[CONFIG] Missing " ++ name ++ str ". Put it in .env")
  end.

(** The variables [BB_API], [BB_PROJ] and [BB_CTX] of [main] once the
    configuration is read; [context_created] records the call of
    [bb.contexts.create]. *)
Record Config := mkConfig {
  BB_API : pystr;
  BB_PROJ : pystr;
  BB_CTX : pystr;
  context_created : bool
}.

(** Lines 155-164 of [main]; [contexts_create proj] is the id of the context
    that [bb.contexts.create(project_id=proj)] returns. *)
Definition configure (env : Env) (contexts_create : pystr → pystr) : Startup Config :=
  api ← must env (str "BROWSERBASE_API_KEY");
  proj ← must env (str "BROWSERBASE_PROJECT_ID");
  let ctx := env (str "BB_CONTEXT_ID") in
  match ctx with
  | Some ((_ :: _) as ctx) => mret (mkConfig api proj ctx false)
  | _ => mret (mkConfig api proj (contexts_create proj) true)
  end.

(** ** Login signal *)

(** A cookie of [page.context.cookies()]: a dict, read with [.get]. *)
Record Cookie := mkCookie { cookie_name : option pystr; cookie_domain : option pystr }.

(** What one iteration of [wait_for_login] can observe. *)
Record Poll := mkPoll {
  poll_cookies : outcome (list Cookie);     (* page.context.cookies() *)
  poll_count : pystr → outcome nat          (* page.locator(sel).count() *)
}.

Definition DQ : N := 34.   (* the double quote character *)

Definition LOGIN_SELECTORS : list pystr :=
  [ str "div[data-testid=" ++ [DQ] ++ str "SideNav_AccountSwitcher_Button" ++ [DQ] ++ str "]";
    str "div[data-testid=" ++ [DQ] ++ str "AppTabBar_Home_Link" ++ [DQ] ++ str "]";
    str "a[aria-label=" ++ [DQ] ++ str "Home" ++ [DQ] ++ str "][href*=" ++ [DQ]
      ++ str "/home" ++ [DQ] ++ str "]";
    str "a[aria-label=" ++ [DQ] ++ str "Profile" ++ [DQ] ++ str "]";
    str "a[aria-label=" ++ [DQ] ++ str "Post" ++ [DQ] ++ str "]" ].

(** [c.get("name") in ("auth_token","ct0") and "x.com" in (c.get("domain") or "")] *)
Definition is_login_cookie (c : Cookie) : bool :=
  match cookie_name c with
  | Some n => bool_decide (n ∈ [str "auth_token"; str "ct0"])
  | None => false
  end
  && str_in (str "x.com") (default [] (cookie_domain c)).

(** The [try] block of one iteration: [True] when it returns, [False] when
    it falls through, also by [except Exception: pass]. *)
Definition cookie_signal (p : Poll) : bool :=
  match poll_cookies p with
  | Returned cookies => existsb is_login_cookie cookies
  | Raised => false
  end.

(** The loop over the selectors of one iteration: [True] when it returns. *)
Fixpoint selector_signal (p : Poll) (sels : list pystr) : outcome bool :=
  match sels with
  | [] => mret false
  | sel :: rest =>
      n ← poll_count p sel;
      if 0 <? n then mret true else selector_signal p rest
  end.

(** The result of [wait_for_login], with the number of [asyncio.sleep(1)]
    calls it made. *)
Record Waited := mkWaited { detected : bool; slept : nat }.

(** The loop [for _ in range(seconds)], at iteration [i] with [remaining]
    iterations to go; [polls i] is what iteration [i] observes. *)
Fixpoint wait_loop (polls : nat → Poll) (remaining i : nat) : outcome Waited :=
  match remaining with
  | O => mret (mkWaited false i)
  | S remaining' =>
      if cookie_signal (polls i) then mret (mkWaited true i)
      else
        s ← selector_signal (polls i) LOGIN_SELECTORS;
        if s : bool then mret (mkWaited true i)
        else wait_loop polls remaining' (S i)
  end.

Definition wait_for_login (polls : nat → Poll) (seconds : Z) : outcome Waited :=
  wait_loop polls (Z.to_nat seconds) 0.

(** One iteration as a whole: it returns [True], falls through to the sleep,
    or raises. *)
Definition poll_signal (p : Poll) : outcome bool :=
  if cookie_signal p then mret true else selector_signal p LOGIN_SELECTORS.

(** ** Notions for the further properties *)

(** The characters of a text that are not whitespace, in order. *)
Definition nonspace `{CharDB} (s : pystr) : pystr :=
  List.filter (λ c, negb (isspace c)) s.

(** Stances in order: negative, neutral, positive. *)
Definition stance_rank (s : Stance) : Z :=
  match s with
  | negative_stance => -1
  | neutral_stance => 0
  | positive_stance => 1
  end.

(** How many of the stances are [s]. *)
Definition stance_eqb (a b : Stance) : bool :=
  match a, b with
  | positive_stance, positive_stance
  | negative_stance, negative_stance
  | neutral_stance, neutral_stance => true
  | _, _ => false
  end.

Fixpoint tally (s : Stance) (stances : list Stance) : Z :=
  match stances with
  | [] => 0
  | x :: rest => ((if stance_eqb s x then 1 else 0) + tally s rest)%Z
  end.

(** * Properties *)

(** ** Aggregator *)

Lemma floor_div_is_floor (a b : Z) : (0 < b)%Z → is_floor (floor_div a b) a b.
Proof.
  intros Hb. unfold is_floor, floor_div.
  pose proof (Z.div_mod a b ltac:(lia)) as Hdm.
  pose proof (Z.mod_pos_bound a b Hb) as Hm.
  nia.
Qed.

Lemma is_floor_unique (q q' a b : Z) : is_floor q a b → is_floor q' a b → q = q'.
Proof. unfold is_floor. intros [? ?] [? ?]. nia. Qed.

(** Percentages of non-negative counts lie between 0 and 100. *)
Lemma percentages_range (c : Counts) :
  (0 ≤ n_positive c)%Z → (0 ≤ n_negative c)%Z → (0 ≤ n_neutral c)%Z →
  (0 ≤ pos_pct (percentages c) ≤ 100)%Z ∧ (0 ≤ neg_pct (percentages c) ≤ 100)%Z ∧
  (0 ≤ neu_pct (percentages c) ≤ 100)%Z.
Proof.
  intros Hp Hn Hu. destruct c as [p n u]; simpl in *.
  set (total := (1 `max` (p + n + u))%Z).
  assert (Ht : (0 < total)%Z) by (subst total; lia).
  assert (Hpt : (p + n ≤ total)%Z) by (subst total; lia).
  pose proof (floor_div_is_floor (100 * p) total Ht) as [Hp1 Hp2].
  pose proof (floor_div_is_floor (100 * n) total Ht) as [Hn1 Hn2].
  unfold floor_div in *.
  set (a := (100 * p / total)%Z) in *. set (b := (100 * n / total)%Z) in *.
  assert (0 ≤ a)%Z by (subst a; apply Z.div_pos; lia).
  assert (0 ≤ b)%Z by (subst b; apply Z.div_pos; lia).
  assert (a + b ≤ 100)%Z by nia.
  lia.
Qed.

Lemma floor_ok_200 : floor_ok_upto 200 = true.
Proof. vm_compute. reflexivity. Qed.

Lemma ints_from_In n i k :
  (0 ≤ k < Z.of_nat n)%Z → (Uint63.to_Z i + Z.of_nat n < wB)%Z →
  In (Uint63.of_Z (Uint63.to_Z i + k)) (ints_from n i).
Proof.
  revert i k. induction n as [|n IH]; intros i k Hk Hb; [lia|].
  cbn [ints_from]. destruct (Z.eq_dec k 0%Z) as [->|Hne].
  - left. rewrite Z.add_0_r. symmetry. apply Uint63.of_to_Z.
  - right. pose proof (Uint63.to_Z_bounded i) as Hi.
    assert (Hs : Uint63.to_Z (i + 1)%uint63 = (Uint63.to_Z i + 1)%Z).
    { rewrite Uint63.add_spec. change (Uint63.to_Z 1) with 1%Z. apply Z.mod_small. lia. }
    replace (Uint63.to_Z i + k)%Z with (Uint63.to_Z (i + 1)%uint63 + (k - 1))%Z by lia.
    apply IH; lia.
Qed.

Lemma to_Z_of_Z_small z : (0 ≤ z < wB)%Z → Uint63.to_Z (Uint63.of_Z z) = z.
Proof. intros Hz. rewrite Uint63.of_Z_spec. by apply Z.mod_small. Qed.

(** On the totals that a run reaches (at most 200 posts, see
    [scrape_tweets_length] and [classify_all_counts]) the binary64 quotient
    has the floor of the exact quotient. *)
Lemma floor_div_float (total c : Z) :
  (1 ≤ total ≤ 200)%Z → (0 ≤ c ≤ total)%Z →
  floor_is (floor_div (100 * c) total) (true_div (100 * c) total) = true.
Proof.
  intros Ht Hc.
  assert (HwB : (2 ^ 20 < wB)%Z) by (vm_compute; reflexivity).
  pose proof floor_ok_200 as Hall. unfold floor_ok_upto in Hall. cbv zeta in Hall.
  rewrite forallb_forall in Hall. specialize (Hall (Uint63.of_Z total)).
  rewrite forallb_forall in Hall.
  assert (Hin_t : In (Uint63.of_Z total) (ints_from 200 1%uint63)).
  { replace total with (Uint63.to_Z 1%uint63 + (total - 1))%Z at 1
      by (change (Uint63.to_Z 1) with 1%Z; lia).
    apply ints_from_In; change (Uint63.to_Z 1) with 1%Z; lia. }
  assert (Hin_c : In (Uint63.of_Z c) (ints_from 201 0%uint63)).
  { replace c with (Uint63.to_Z 0%uint63 + c)%Z at 1
      by (change (Uint63.to_Z 0) with 0%Z; lia).
    apply ints_from_In; change (Uint63.to_Z 0) with 0%Z; lia. }
  specialize (Hall Hin_t _ Hin_c).
  assert (Hle : Uint63.leb (Uint63.of_Z c) (Uint63.of_Z total) = true).
  { apply Uint63.leb_spec. rewrite !to_Z_of_Z_small by lia. lia. }
  rewrite Hle in Hall. simpl in Hall.
  unfold floor_ok in Hall. cbv zeta in Hall.
  unfold floor_is, true_div, float_of_int, floor_div.
  assert (Hq : (0 ≤ 100 * c / total ≤ 100 * c)%Z).
  { split; [apply Z.div_pos; lia|]. apply Z.div_le_upper_bound; nia. }
  assert (Ea : Uint63.of_Z (100 * c) = (100 * Uint63.of_Z c)%uint63).
  { apply Uint63.to_Z_inj. rewrite Uint63.mul_spec, !to_Z_of_Z_small by lia.
    change (Uint63.to_Z 100) with 100%Z. symmetry. apply Z.mod_small. lia. }
  assert (Eq : Uint63.of_Z (100 * c / total)
               = (100 * Uint63.of_Z c / Uint63.of_Z total)%uint63).
  { apply Uint63.to_Z_inj. rewrite Uint63.div_spec, <- Ea.
    by rewrite !to_Z_of_Z_small by lia. }
  assert (Eq1 : Uint63.of_Z (100 * c / total + 1)
                = (100 * Uint63.of_Z c / Uint63.of_Z total + 1)%uint63).
  { apply Uint63.to_Z_inj. rewrite Uint63.add_spec, <- Eq.
    rewrite !to_Z_of_Z_small by lia. change (Uint63.to_Z 1) with 1%Z.
    symmetry. apply Z.mod_small. lia. }
  rewrite Ea, Eq, Eq1. exact Hall.
Qed.

(** C1. For all non-negative counts, [total] is [max(1, positive + negative +
    neutral)], [pos_pct] and [neg_pct] are the floors of the exact quotients
    [100 * positive / total] and [100 * negative / total], [neu_pct] is
    [100 - pos_pct - neg_pct], and the three percentages add up to 100; with
    all counts zero they are 0, 0 and 100. *)
Theorem percentages_sum_to_100 (positive negative neutral : Z) :
  (0 ≤ positive)%Z → (0 ≤ negative)%Z → (0 ≤ neutral)%Z →
  let total := (1 `max` (positive + negative + neutral))%Z in
  let p := percentages (mkCounts positive negative neutral) in
  is_floor (pos_pct p) (100 * positive) total ∧
  is_floor (neg_pct p) (100 * negative) total ∧
  neu_pct p = (100 - pos_pct p - neg_pct p)%Z ∧
  (pos_pct p + neg_pct p + neu_pct p = 100)%Z ∧
  (positive = 0%Z → negative = 0%Z → neutral = 0%Z →
   pos_pct p = 0%Z ∧ neg_pct p = 0%Z ∧ neu_pct p = 100%Z).
Proof.
  intros Hp Hn Hu total p.
  assert (Ht : (0 < total)%Z) by (subst total; lia).
  split; [apply floor_div_is_floor, Ht|].
  split; [apply floor_div_is_floor, Ht|].
  split; [reflexivity|].
  split; [subst p; simpl; lia|].
  intros -> -> ->. subst p. vm_compute. done.
Qed.

Lemma percentages_sum_to_100_witness :
  let p := percentages (mkCounts 1 1 2) in
  (pos_pct p + neg_pct p + neu_pct p = 100)%Z ∧
  pos_pct p = 25%Z ∧ neg_pct p = 25%Z ∧ neu_pct p = 50%Z.
Proof.
  split.
  - apply (percentages_sum_to_100 1 1 2); lia.
  - repeat split; reflexivity.
Defined.

(** C6. The skew label is negative exactly when the negative count is
    strictly above both other counts, positive exactly when the positive
    count is, and mixed in every other case. *)
Theorem skew_of_spec (c : Counts) :
  (skew_of c = skew_negative ↔
     (n_negative c > n_positive c)%Z ∧ (n_negative c > n_neutral c)%Z) ∧
  (skew_of c = skew_positive ↔
     (n_positive c > n_negative c)%Z ∧ (n_positive c > n_neutral c)%Z) ∧
  (skew_of c = skew_mixed ↔
     ¬ ((n_negative c > n_positive c)%Z ∧ (n_negative c > n_neutral c)%Z) ∧
     ¬ ((n_positive c > n_negative c)%Z ∧ (n_positive c > n_neutral c)%Z)).
Proof.
  unfold skew_of.
  destruct (Z.gtb_spec (n_negative c) (n_positive c `max` n_neutral c));
    destruct (Z.gtb_spec (n_positive c) (n_negative c `max` n_neutral c));
    (repeat split; intros; try discriminate; try lia).
Qed.

Example skew_all_tied : skew_of (mkCounts 3 3 3) = skew_mixed.
Proof. reflexivity. Qed.

Example skew_non_strict : skew_of (mkCounts 2 5 5) = skew_mixed.
Proof. reflexivity. Qed.

(** ** Stance classifier *)

Section Classifier.
Context `{CharDB}.

Lemma classify_stance_adjusted (text : pystr) (sia : SentimentIntensityAnalyzer) :
  ∃ score, (score == adjusted_score text sia)%Q ∧
           classify_stance text sia = stance_of_score score.
Proof.
  unfold classify_stance, adjusted_score, stance_of_score.
  destruct (any_in POS_TARIFF_HINTS (lower text)),
           (any_in NEG_TARIFF_HINTS (lower text));
    (eexists; split; [|reflexivity]); lra.
Qed.

Lemma stance_of_score_spec (score : Q) :
  (stance_of_score score = positive_stance ↔ (0.2 <= score)%Q) ∧
  (stance_of_score score = negative_stance ↔ (score <= -0.2)%Q) ∧
  (stance_of_score score = neutral_stance ↔ (-0.2 < score)%Q ∧ (score < 0.2)%Q).
Proof.
  unfold stance_of_score.
  destruct (Qle_bool 0.2 score) eqn:E1; [|destruct (Qle_bool score (-0.2)) eqn:E2].
  - apply Qle_bool_iff in E1. repeat split; intros; try discriminate; try lra.
  - apply Qle_bool_iff in E2.
    assert (¬ (0.2 <= score)%Q) by (rewrite <- Qle_bool_iff; congruence).
    repeat split; intros; try discriminate; try lra.
  - assert (¬ (0.2 <= score)%Q) by (rewrite <- Qle_bool_iff; congruence).
    assert (¬ (score <= -0.2)%Q) by (rewrite <- Qle_bool_iff; congruence).
    repeat split; intros; try discriminate; try lra.
Qed.

Lemma stance_of_score_proper (a b : Q) : (a == b)%Q → stance_of_score a = stance_of_score b.
Proof.
  intros Hab. unfold stance_of_score.
  assert (E1 : Qle_bool 0.2 a = Qle_bool 0.2 b).
  { apply eq_true_iff_eq. rewrite !Qle_bool_iff. split; intros; lra. }
  assert (E2 : Qle_bool a (-0.2) = Qle_bool b (-0.2)).
  { apply eq_true_iff_eq. rewrite !Qle_bool_iff. split; intros; lra. }
  by rewrite E1, E2.
Qed.

(** C3. [classify_stance] starts from the compound score of the polarity
    scorer, adds 0.20 when the lowercased text contains a positive hint,
    subtracts 0.20 when it contains a negative hint (both may apply), and
    answers positive exactly when the adjusted score is at least 0.2,
    negative exactly when it is at most -0.2, neutral otherwise. *)
Theorem classify_stance_spec (text : pystr) (sia : SentimentIntensityAnalyzer) :
  let score := adjusted_score text sia in
  (classify_stance text sia = positive_stance ↔ (0.2 <= score)%Q) ∧
  (classify_stance text sia = negative_stance ↔ (score <= -0.2)%Q) ∧
  (classify_stance text sia = neutral_stance ↔ (-0.2 < score)%Q ∧ (score < 0.2)%Q).
Proof.
  intros score. destruct (classify_stance_adjusted text sia) as (s & Hs & ->).
  fold score in Hs. rewrite (stance_of_score_proper _ _ Hs).
  apply stance_of_score_spec.
Qed.

(** C10. When the lowercased text contains both a positive and a negative
    hint, the two adjustments cancel and the stance is that of the
    unadjusted compound score. *)
Theorem classify_stance_both_hints (text : pystr) (sia : SentimentIntensityAnalyzer) :
  any_in POS_TARIFF_HINTS (lower text) = true →
  any_in NEG_TARIFF_HINTS (lower text) = true →
  (adjusted_score text sia == polarity_compound sia text)%Q ∧
  classify_stance text sia = stance_of_score (polarity_compound sia text).
Proof.
  intros Hpos Hneg.
  assert (Hadj : (adjusted_score text sia == polarity_compound sia text)%Q).
  { unfold adjusted_score. rewrite Hpos, Hneg. lra. }
  split; [exact Hadj|].
  destruct (classify_stance_adjusted text sia) as (s & Hs & ->).
  apply stance_of_score_proper. by rewrite Hs.
Qed.
End Classifier.

Lemma classify_stance_both_hints_witness :
  let sia := {| polarity_compound := λ _, 0.5%Q |} in
  let text := str "Good for jobs, BAD for prices" in
  any_in POS_TARIFF_HINTS (ascii_lower text) = true ∧
  any_in NEG_TARIFF_HINTS (ascii_lower text) = true ∧
  classify_stance (H:=ascii_db) text sia = positive_stance.
Proof.
  intros sia text.
  split; [vm_compute; reflexivity|].
  split; [vm_compute; reflexivity|].
  transitivity (stance_of_score (polarity_compound sia text)); [|reflexivity].
  apply (classify_stance_both_hints (H:=ascii_db) text sia); vm_compute; reflexivity.
Defined.

Example classify_positive_hint :
  classify_stance (H:=ascii_db) (str "Tariffs protect us") {| polarity_compound := λ _, 0%Q |}
  = positive_stance.
Proof. reflexivity. Qed.

Example classify_negative_hint :
  classify_stance (H:=ascii_db) (str "A stupid idea") {| polarity_compound := λ _, 0.1%Q |}
  = neutral_stance.
Proof. reflexivity. Qed.

(** ** Theme ranker *)

Section SortedDesc.
(** [sorted_desc] is a stable sort: sorted by count, the largest first, and
    items of equal count in the order [idx] that the input had. *)
Variable idx : pystr → nat.

Lemma insert_desc_perm x l : insert_desc x l ≡ₚ x :: l.
Proof.
  induction l as [|y l IH]; simpl; [done|].
  destruct (x.2 <? y.2)%Z; [|done].
  rewrite IH. apply Permutation_swap.
Qed.

Lemma sorted_desc_perm l : sorted_desc l ≡ₚ l.
Proof.
  induction l as [|x l IH]; simpl; [done|].
  rewrite insert_desc_perm. by rewrite IH.
Qed.

Lemma insert_desc_sorted x l :
  StronglySorted (item_before idx) l →
  Forall (λ y, idx x.1 < idx y.1) l →
  StronglySorted (item_before idx) (insert_desc x l).
Proof.
  induction 1 as [|y l Hs IH Hy]; intros Hx; simpl.
  - repeat constructor.
  - apply Forall_cons in Hx as [Hxy Hx].
    destruct (Z.ltb_spec x.2 y.2) as [Hlt|Hge].
    + constructor; [by apply IH|].
      rewrite insert_desc_perm. constructor; [by left|done].
    + constructor; [by constructor|].
      constructor.
      * unfold item_before. lia.
      * rewrite Forall_forall in Hy, Hx |- *. intros z Hz.
        specialize (Hy z Hz). specialize (Hx z Hz).
        unfold item_before in *. lia.
Qed.

Lemma sorted_desc_sorted l :
  StronglySorted (λ x y, idx x.1 < idx y.1) l →
  StronglySorted (item_before idx) (sorted_desc l).
Proof.
  induction 1 as [|x l Hs IH Hx]; simpl; [constructor|].
  apply insert_desc_sorted; [done|].
  by rewrite sorted_desc_perm.
Qed.
End SortedDesc.

Lemma dict_incr_names t counts : (dict_incr t counts).*1 = counts.*1.
Proof.
  induction counts as [|[k v] counts IH]; [done|].
  cbn [dict_incr]. case_decide; [done|]. rewrite !fmap_cons. by rewrite IH.
Qed.

Lemma dict_incr_fmap t counts :
  NoDup counts.*1 →
  dict_incr t counts = (λ kv, if decide (kv.1 = t) then (kv.1, (kv.2 + 1)%Z) else kv) <$> counts.
Proof.
  induction counts as [|[k v] counts IH]; simpl; [done|].
  intros [Hk Hnd]%NoDup_cons. case_decide as Hkt; simpl.
  - f_equal. subst k. clear IH Hnd.
    induction counts as [|[k' v'] counts IH]; simpl; [done|].
    simpl in Hk. apply not_elem_of_cons in Hk as [Hne Hk].
    case_decide; [congruence|]. f_equal. by apply IH.
  - f_equal. by apply IH.
Qed.

Lemma dict_get_elem kv counts : NoDup counts.*1 → kv ∈ counts → dict_get kv.1 counts = Some kv.2.
Proof.
  induction counts as [|[k v] counts IH]; simpl; [by intros _ ?%elem_of_nil|].
  intros [Hk Hnd]%NoDup_cons [->|Hin]%elem_of_cons; simpl.
  - by case_decide.
  - case_decide as Hkv; [|by apply IH].
    exfalso. apply Hk. subst k. apply list_elem_of_fmap. by exists kv.
Qed.

Lemma count_text_names themes low counts : (count_text themes low counts).*1 = counts.*1.
Proof.
  unfold count_text. revert counts.
  induction themes as [|e themes IH]; intros counts; simpl; [done|].
  rewrite IH. destruct (any_in e.2 low); [apply dict_incr_names|done].
Qed.

Lemma count_text_fmap themes low counts :
  NoDup counts.*1 →
  count_text themes low counts = (λ kv, (kv.1, (kv.2 + hits themes low kv.1)%Z)) <$> counts.
Proof.
  unfold count_text. revert counts.
  induction themes as [|e themes IH]; intros counts Hnd; simpl.
  - rewrite <- (list_fmap_id counts) at 1. apply list_fmap_ext.
    intros _ [k v] _. simpl. f_equal. lia.
  - rewrite IH; [|destruct (any_in e.2 low); by rewrite ?dict_incr_names].
    destruct (any_in e.2 low).
    + rewrite dict_incr_fmap by done. rewrite <- list_fmap_compose.
      apply list_fmap_ext. intros _ [k v] _. simpl.
      repeat case_decide; simpl in *; try congruence; f_equal; lia.
    + apply list_fmap_ext. intros _ [k v] _. simpl.
      case_decide; f_equal; lia.
Qed.

Section Ranker.
Context `{CharDB}.

Lemma count_texts_fmap themes texts counts :
  NoDup counts.*1 →
  count_texts themes texts counts =
  (λ kv, (kv.1, (kv.2 + total_hits themes texts kv.1)%Z)) <$> counts.
Proof.
  unfold count_texts. revert counts.
  induction texts as [|tx texts IH]; intros counts Hnd; simpl.
  - rewrite <- (list_fmap_id counts) at 1. apply list_fmap_ext.
    intros _ [k v] _. simpl. f_equal. lia.
  - rewrite IH.
    + rewrite count_text_fmap by done. rewrite <- list_fmap_compose.
      apply list_fmap_ext. intros _ [k v] _. simpl. f_equal. lia.
    + by rewrite count_text_names.
Qed.
Lemma hits_absent themes low t : t ∉ themes.*1 → hits themes low t = 0%Z.
Proof.
  induction themes as [|e themes IH]; simpl; [done|].
  intros [Hne Hni]%not_elem_of_cons. case_decide; [congruence|]. by rewrite IH.
Qed.

Lemma hits_keys_of themes low t :
  NoDup themes.*1 →
  hits themes low t =
  match keys_of themes t with
  | Some keys => if any_in keys low then 1%Z else 0%Z
  | None => 0%Z
  end.
Proof.
  induction themes as [|e themes IH]; simpl; [done|].
  intros [Hni Hnd]%NoDup_cons. case_decide as He.
  - subst t. rewrite hits_absent by done. lia.
  - by rewrite IH.
Qed.

Lemma total_hits_match_count themes texts t :
  NoDup themes.*1 →
  total_hits themes texts t =
  match keys_of themes t with
  | Some keys => match_count keys texts
  | None => 0%Z
  end.
Proof.
  intros Hnd. induction texts as [|tx texts IH]; simpl.
  - by destruct (keys_of themes t).
  - rewrite IH, hits_keys_of by done. by destruct (keys_of themes t).
Qed.

Lemma THEMES_names_NoDup : NoDup THEMES.*1.
Proof. apply (bool_decide_unpack _). by vm_compute. Qed.

Lemma THEMES_decl_order :
  StronglySorted (λ a b, decl_index a < decl_index b) THEMES.*1.
Proof. apply (bool_decide_unpack _). by vm_compute. Qed.

Lemma match_count_nonneg keys texts : (0 ≤ match_count keys texts)%Z.
Proof. induction texts as [|tx texts IH]; simpl; [done|]. destruct (any_in _ _); lia. Qed.

Lemma theme_count_pos_is_theme texts t : (0 < theme_count texts t)%Z → t ∈ THEMES.*1.
Proof.
  unfold theme_count. generalize THEMES. intros themes.
  induction themes as [|e themes IH]; simpl; [lia|].
  case_decide; [subst; left|right; by apply IH].
Qed.

(** The dict [counts] when the two loops are over. *)
Lemma counts_final texts :
  count_texts THEMES texts ((λ e, (e.1, 0%Z)) <$> THEMES) =
  (λ e, (e.1, theme_count texts e.1)) <$> THEMES.
Proof.
  rewrite count_texts_fmap.
  - rewrite <- list_fmap_compose. apply list_fmap_ext. intros _ e _. simpl.
    unfold theme_count. by rewrite total_hits_match_count by apply THEMES_names_NoDup.
  - rewrite <- list_fmap_compose. apply THEMES_names_NoDup.
Qed.

Lemma ranked_themes_eq texts :
  ranked_themes texts =
  omap (λ kv : pystr * Z, if (kv.2 >? 0)%Z then Some kv.1 else None)
       (sorted_desc ((λ e, (e.1, theme_count texts e.1)) <$> THEMES)).
Proof.
  unfold ranked_themes. rewrite counts_final.
  set (counts := (λ e, (e.1, theme_count texts e.1)) <$> THEMES).
  assert (Hnd : NoDup counts.*1).
  { subst counts. rewrite <- list_fmap_compose. apply THEMES_names_NoDup. }
  apply list_omap_ext. apply Forall_Forall2_diag, Forall_forall.
  intros kv Hkv. rewrite sorted_desc_perm in Hkv.
  by rewrite (dict_get_elem kv counts Hnd Hkv).
Qed.

Lemma ranked_themes_elem texts t :
  t ∈ ranked_themes texts ↔ (0 < theme_count texts t)%Z.
Proof.
  rewrite ranked_themes_eq, list_elem_of_omap. split.
  - intros ([k c] & Hkc & Hf). rewrite sorted_desc_perm in Hkc.
    apply list_elem_of_fmap in Hkc as (e & [= -> ->] & _). simpl in Hf.
    destruct (Z.gtb_spec (theme_count texts e.1) 0); [|done].
    injection Hf as <-. lia.
  - intros Hpos. pose proof (theme_count_pos_is_theme _ _ Hpos) as Hin.
    apply list_elem_of_fmap in Hin as (e & -> & He).
    exists (e.1, theme_count texts e.1). split.
    + rewrite sorted_desc_perm. apply list_elem_of_fmap. by exists e.
    + simpl. destruct (Z.gtb_spec (theme_count texts e.1) 0); [done|lia].
Qed.

Lemma StronglySorted_on_fst {B} (R : relation pystr) (l : list (pystr * B)) :
  StronglySorted R l.*1 → StronglySorted (λ x y, R x.1 y.1) l.
Proof.
  induction l as [|x l IH]; [constructor|].
  rewrite fmap_cons. intros [Hs Hx]%StronglySorted_inv.
  constructor; [by apply IH|].
  rewrite Forall_fmap in Hx. exact Hx.
Qed.

Lemma StronglySorted_omap {A B} (R : relation A) (R' : relation B)
    (f : A → option B) (l : list A) :
  StronglySorted R l →
  (∀ x y a b, x ∈ l → y ∈ l → R x y → f x = Some a → f y = Some b → R' a b) →
  StronglySorted R' (omap f l).
Proof.
  induction 1 as [|x l Hs IH Hx]; intros HR; simpl; [constructor|].
  assert (Htl : StronglySorted R' (omap f l)).
  { apply IH. intros ??????. apply HR; by right. }
  destruct (f x) as [a|] eqn:Hfx; [|done].
  constructor; [done|].
  apply Forall_forall. intros b (y & Hy & Hfy)%list_elem_of_omap.
  rewrite Forall_forall in Hx.
  apply (HR x y); [left|by right|by apply Hx|done|done].
Qed.

Lemma ranked_themes_sorted texts :
  StronglySorted (ranks_before texts) (ranked_themes texts).
Proof.
  rewrite ranked_themes_eq.
  set (counts := (λ e, (e.1, theme_count texts e.1)) <$> THEMES).
  assert (Hval : ∀ kv, kv ∈ sorted_desc counts → kv.2 = theme_count texts kv.1).
  { intros kv Hkv. rewrite sorted_desc_perm in Hkv.
    by apply list_elem_of_fmap in Hkv as (e & -> & _). }
  eapply (StronglySorted_omap (item_before decl_index)).
  - apply sorted_desc_sorted.
    apply (StronglySorted_on_fst (λ a b, decl_index a < decl_index b)).
    subst counts. rewrite <- list_fmap_compose. apply THEMES_decl_order.
  - intros x y a b Hx Hy Hxy Hfx Hfy.
    destruct (x.2 >? 0)%Z; [|done]. destruct (y.2 >? 0)%Z; [|done].
    injection Hfx as <-. injection Hfy as <-.
    unfold ranks_before, item_before in *.
    by rewrite <- !Hval.
Qed.

(** [top_themes] returns a prefix of [ranked]. *)
Lemma top_themes_prefix texts k :
  ∃ n, top_themes texts k = take n (ranked_themes texts) ∧ (0 ≤ k → n = Z.to_nat k)%Z.
Proof.
  unfold top_themes, slice_to.
  destruct (ranked_themes texts) as [|t ranked] eqn:E.
  - exists (Z.to_nat k). by rewrite take_nil.
  - destruct (Z.leb_spec 0 k); eauto. eexists. split; [done|lia].
Qed.
End Ranker.




(** The names returned for [k >= 0] are the first [k] of the ranking of all
    the themes that match: a matching theme that is left out ranks after
    every returned one, and then exactly [k] names are returned. *)
Lemma top_themes_top_k `{CharDB} (texts : list pystr) (k : Z) (t : pystr) :
  (0 ≤ k)%Z → (0 < theme_count texts t)%Z → t ∉ top_themes texts k →
  Z.of_nat (length (top_themes texts k)) = k ∧
  ∀ a, a ∈ top_themes texts k → ranks_before texts a t.
Proof.
  intros Hk Hpos Hnot. destruct (top_themes_prefix texts k) as (n & Hout & Hn).
  specialize (Hn Hk). rewrite Hout in *.
  apply ranked_themes_elem in Hpos.
  pose proof (ranked_themes_sorted texts) as Hs.
  rewrite <- (take_drop n (ranked_themes texts)) in Hs, Hpos.
  apply elem_of_app in Hpos as [?|Hdrop]; [done|].
  split.
  - rewrite length_take. destruct (decide (n ≤ length (ranked_themes texts))); [lia|].
    rewrite drop_ge in Hdrop by lia. by apply elem_of_nil in Hdrop.
  - intros a Ha. by eapply StronglySorted_app_1_elem_of.
Qed.

Example top_themes_tie_break :
  top_themes (H:=ascii_db) [str "factory jobs"; str "China"] 2
  = [str "china/geopolitics"; str "jobs/manufacturing"].
Proof. vm_compute. reflexivity. Qed.

(** ** Whitespace normalization *)

Section Normalize.
Context `{CharDB}.

Lemma lstrip_spec s : ∃ w, s = w ++ lstrip s ∧ Forall (λ c, isspace c = true) w.
Proof.
  induction s as [|c s (w & Hs & Hw)]; simpl.
  - by exists [].
  - destruct (isspace c) eqn:Hc.
    + exists (c :: w). split; [simpl; congruence|by constructor].
    + by exists [].
Qed.

Lemma lstrip_head s c : head (lstrip s) = Some c → isspace c = false.
Proof.
  induction s as [|c' s IH]; simpl; [done|].
  destruct (isspace c') eqn:Hc; [done|]. by intros [= <-].
Qed.

Lemma rstrip_spec s : ∃ w, s = rstrip s ++ w ∧ Forall (λ c, isspace c = true) w.
Proof.
  unfold rstrip. destruct (lstrip_spec (reverse s)) as (w & Hs & Hw).
  exists (reverse w). split; [|by apply Forall_reverse].
  rewrite <- reverse_app, <- Hs. by rewrite reverse_involutive.
Qed.

Lemma rstrip_last s c : last (rstrip s) = Some c → isspace c = false.
Proof. unfold rstrip. rewrite last_reverse. apply lstrip_head. Qed.

Lemma strip_head s c : head (strip s) = Some c → isspace c = false.
Proof.
  unfold strip. destruct (rstrip_spec (lstrip s)) as (w & Hs & _).
  intros Hh. apply (lstrip_head s). rewrite Hs.
  destruct (rstrip (lstrip s)); [done|]. exact Hh.
Qed.

Lemma strip_last s c : last (strip s) = Some c → isspace c = false.
Proof. apply rstrip_last. Qed.

Lemma spaces_ok_app_r a l1 l2 : spaces_ok a (l1 ++ l2) = true → spaces_ok a l2 = true.
Proof.
  induction l1 as [|c l1 IH]; simpl; [done|].
  intros [_ ?]%andb_true_iff. by apply IH.
Qed.

Lemma spaces_ok_prefix p w :
  spaces_ok true (p ++ w) = true →
  (∀ c, last p = Some c → isspace c = false) →
  spaces_ok false p = true.
Proof.
  induction p as [|c p IH]; simpl; [done|].
  intros [Hc Hp]%andb_true_iff Hlast. apply andb_true_iff. split.
  - destruct (isspace c) eqn:Hws; [|done].
    destruct p as [|c' p]; simpl in *; [|done].
    specialize (Hlast c eq_refl). congruence.
  - apply IH; [done|]. intros c' Hc'. apply Hlast.
    destruct p; [done|]. by rewrite last_cons_cons.
Qed.

Lemma sub_ws_head_true s c : head (sub_ws_from true s) = Some c → isspace c = false.
Proof.
  induction s as [|c' s IH]; simpl; [done|].
  destruct (isspace c') eqn:Hc; [done|]. by intros [= <-].
Qed.

Lemma sub_ws_spaces_ok b s : spaces_ok true (sub_ws_from b s) = true.
Proof.
  revert b. induction s as [|c s IH]; intros b; simpl; [done|].
  destruct (isspace c) eqn:Hc; [destruct b|]; simpl; rewrite ?IH, ?Hc; try done.
  rewrite andb_true_r. destruct (isspace SP); [|done]. simpl.
  destruct (sub_ws_from true s) as [|c' t] eqn:E; [done|].
  apply negb_true_iff, (sub_ws_head_true s). by rewrite E.
Qed.

Lemma sub_ws_snoc b s c :
  isspace c = false → sub_ws_from b (s ++ [c]) = sub_ws_from b s ++ [c].
Proof.
  intros Hc. revert b. induction s as [|c' s IH]; intros b; simpl.
  - by rewrite Hc.
  - destruct (isspace c'); [destruct b|]; simpl; by rewrite IH.
Qed.

(** Structured mode: [re.sub(r"\s+", " ", text).strip()]. *)
Lemma is_normalized_strip_sub s : is_normalized (strip (re_sub_ws s)) = true.
Proof.
  unfold is_normalized. apply andb_true_iff. split.
  - destruct (strip (re_sub_ws s)) as [|c t] eqn:E; [done|].
    apply negb_true_iff, (strip_head (re_sub_ws s)). by rewrite E.
  - unfold strip.
    destruct (lstrip_spec (re_sub_ws s)) as (w1 & Hs1 & _).
    destruct (rstrip_spec (lstrip (re_sub_ws s))) as (w2 & Hs2 & _).
    apply (spaces_ok_prefix _ w2); [|apply rstrip_last].
    rewrite <- Hs2. apply (spaces_ok_app_r _ w1). rewrite <- Hs1.
    apply sub_ws_spaces_ok.
Qed.

(** Fallback mode: [re.sub(r"\s+", " ", text.strip())]. *)
Lemma is_normalized_sub_strip s : is_normalized (re_sub_ws (strip s)) = true.
Proof.
  unfold is_normalized, re_sub_ws.
  pose proof (strip_head s) as Hhead. pose proof (strip_last s) as Hlast.
  destruct (strip s) as [|c t] eqn:E; [done|].
  pose proof (Hhead c eq_refl) as Hc.
  apply andb_true_iff. split; [simpl; rewrite Hc; simpl; by rewrite Hc|].
  apply (spaces_ok_prefix _ []); [rewrite app_nil_r; apply sub_ws_spaces_ok|].
  destruct (last (c :: t)) as [d|] eqn:Hd; [|by apply last_None in Hd].
  pose proof (Hlast d eq_refl) as Hdws.
  apply last_Some in Hd as (u & ->).
  rewrite sub_ws_snoc by done. intros d'. rewrite last_snoc. by intros [= <-].
Qed.

Lemma spaces_ok_lookup s i c :
  spaces_ok false s = true → s !! i = Some c → isspace c = true →
  c = SP ∧ ∃ c', s !! S i = Some c' ∧ isspace c' = false.
Proof.
  revert i. induction s as [|d s IH]; intros i; simpl; [done|].
  intros [Hd Hs]%andb_true_iff Hi Hc. destruct i as [|i]; simpl in *.
  - injection Hi as ->. rewrite Hc in Hd. apply andb_true_iff in Hd as [Hsp Hnext].
    split; [by apply N.eqb_eq|].
    destruct s as [|c' s]; [done|]. exists c'. by apply negb_true_iff in Hnext.
  - by apply IH.
Qed.

Lemma is_normalized_spec s : is_normalized s = true → ws_normalized s.
Proof.
  unfold is_normalized. intros [Hhead Hs]%andb_true_iff i c Hi Hc.
  destruct (spaces_ok_lookup s i c Hs Hi Hc) as (-> & Hnext).
  split; [done|]. split; [|done].
  destruct i; [|lia]. destruct s as [|d s]; [done|].
  injection Hi as ->. apply negb_true_iff in Hhead. congruence.
Qed.
End Normalize.

(** ** Post extractor *)

Lemma take_min_length {A} (l : list A) n : take (length l `min` n) l = take n l.
Proof.
  destruct (decide (n ≤ length l)).
  - by rewrite Nat.min_r.
  - rewrite Nat.min_l by lia. rewrite !take_ge by lia. done.
Qed.

Lemma collect_Forall {A} (P : Tweet → Prop) (cand : A → outcome (option Tweet)) items cs :
  (∀ x t, cand x = Returned (Some t) → P t) →
  collect cand items = Returned cs → Forall P cs.
Proof.
  intros Hcand. revert cs. induction items as [|x items IH]; intros cs; simpl.
  - intros [= <-]. constructor.
  - destruct (cand x) as [c|] eqn:Ex; simpl; [|done].
    destruct (collect cand items) as [cs'|]; simpl; [|done].
    intros [= <-]. specialize (IH cs' eq_refl).
    destruct c as [t|]; [|done]. constructor; [by eapply Hcand|done].
Qed.

Lemma collect_length {A} (cand : A → outcome (option Tweet)) items cs :
  collect cand items = Returned cs → length cs ≤ length items.
Proof.
  revert cs. induction items as [|x items IH]; intros cs; simpl.
  - by intros [= <-].
  - destruct (cand x) as [c|]; simpl; [|done].
    destruct (collect cand items) as [cs'|]; simpl; [|done].
    intros [= <-]. specialize (IH cs' eq_refl). destruct c; simpl; lia.
Qed.

Lemma collect_Raised {A} (cand : A → outcome (option Tweet)) items :
  collect cand items = Raised ↔ ∃ x, x ∈ items ∧ cand x = Raised.
Proof.
  induction items as [|x items IH]; simpl.
  - split; [done|]. by intros (x & ?%elem_of_nil & _).
  - destruct (cand x) as [c|] eqn:Ex; simpl.
    + destruct (collect cand items) as [cs|]; simpl.
      * split; [done|]. intros (y & [->|Hy]%elem_of_cons & Hr); [congruence|].
        assert (Returned cs = Raised) by (apply IH; eauto). done.
      * split; [|done]. intros _. destruct (proj1 IH eq_refl) as (y & Hy & Hr).
        exists y. split; [by right|done].
    + split; [|done]. intros _. exists x. split; [left|done].
Qed.

Section Emit.
(** A loop whose body computes a candidate and emits it under the key
    [enc]: it is [collect] followed by the emissions. *)
Context {A : Type} (enc : Tweet → pystr) (cand : A → outcome (option Tweet))
        (step : Scrape → A → outcome Scrape).
Hypothesis step_cand : ∀ st x,
  step st x = c ← cand x; mret (match c with Some t => emit (enc t) t st | None => st end).

Lemma for_each_collect items st :
  for_each step items st = (λ cs, emit_all enc cs st) <$> collect cand items.
Proof.
  revert st. induction items as [|x items IH]; intros st; simpl; [done|].
  rewrite step_cand. destruct (cand x) as [c|]; simpl; [|done].
  rewrite IH. destruct (collect cand items) as [cs|]; simpl; [|done].
  by destruct c.
Qed.

Lemma emit_all_dedup (ok : Tweet → Prop) cs st seenp :
  (∀ a b, ok a → ok b → enc a = enc b ↔ dedup_key a = dedup_key b) →
  Forall ok cs →
  (∀ t, ok t → enc t ∈ seen st ↔ dedup_key t ∈ seenp) →
  tweets (emit_all enc cs st) = tweets st ++ dedup_first seenp cs.
Proof.
  intros Henc. revert st seenp.
  induction cs as [|t cs IH]; intros st seenp Hok Hseen; simpl dedup_first.
  - by rewrite app_nil_r.
  - apply Forall_cons in Hok as [Ht Hok].
    change (emit_all enc (t :: cs) st) with (emit_all enc cs (emit (enc t) t st)).
    unfold emit.
    destruct (decide (dedup_key t ∈ seenp)) as [Hin|Hni].
    + rewrite bool_decide_eq_true_2 by by apply Hseen. by apply IH.
    + rewrite bool_decide_eq_false_2 by by rewrite Hseen.
      rewrite (IH _ (dedup_key t :: seenp)); [simpl; by rewrite <- app_assoc|done|].
      intros u Hu. simpl. rewrite elem_of_union, elem_of_singleton, elem_of_cons.
      rewrite (Henc u t Hu Ht), (Hseen u Hu). done.
Qed.
End Emit.

Lemma emit_all_elem enc cs st t :
  t ∈ tweets (emit_all enc cs st) → t ∈ tweets st ∨ t ∈ cs.
Proof.
  revert st. induction cs as [|c cs IH]; intros st; [by left|].
  change (emit_all enc (c :: cs) st) with (emit_all enc cs (emit (enc c) c st)).
  intros [Hin|Hin]%IH; [|right; by right].
  unfold emit in Hin. case_bool_decide; [by left|]. simpl in Hin.
  apply elem_of_app in Hin as [?|Heq%list_elem_of_singleton]; [by left|].
  subst t. right; left.
Qed.

Lemma emit_all_length enc cs st :
  length (tweets (emit_all enc cs st)) ≤ length (tweets st) + length cs.
Proof.
  revert st. induction cs as [|c cs IH]; intros st; [simpl; lia|].
  change (emit_all enc (c :: cs) st) with (emit_all enc cs (emit (enc c) c st)).
  etrans; [apply IH|]. unfold emit. case_bool_decide; simpl; [lia|].
  rewrite length_app. simpl. lia.
Qed.

(** *** Keeping the first candidate of each key *)

Lemma dedup_first_first seen cs t :
  t ∈ dedup_first seen cs →
  ∃ l1 l2, cs = l1 ++ (t :: l2) ∧ (dedup_key t ∉ seen) ∧ (dedup_key t ∉ (dedup_key <$> l1)).
Proof.
  revert seen. induction cs as [|c cs IH]; intros seen; simpl; [by intros ?%elem_of_nil|].
  case_decide as Hc.
  - intros (l1 & l2 & -> & Hseen & Hl1)%IH. exists (c :: l1), l2.
    split; [done|]. split; [done|]. rewrite fmap_cons, not_elem_of_cons.
    split; [congruence|done].
  - intros [->|Hin]%elem_of_cons.
    + exists [], cs. split; [done|]. split; [done|]. apply not_elem_of_nil.
    + apply IH in Hin as (l1 & l2 & -> & Hseen & Hl1).
      apply not_elem_of_cons in Hseen as [Hne Hseen].
      exists (c :: l1), l2. split; [done|]. split; [done|].
      rewrite fmap_cons, not_elem_of_cons. done.
Qed.

Lemma dedup_first_NoDup seen cs : NoDup (dedup_key <$> dedup_first seen cs).
Proof.
  revert seen. induction cs as [|c cs IH]; intros seen; simpl; [constructor|].
  case_decide as Hc; [apply IH|].
  rewrite fmap_cons. constructor; [|apply IH].
  intros (t & Ht & Hin)%list_elem_of_fmap.
  apply dedup_first_first in Hin as (_ & _ & _ & Hseen & _).
  apply Hseen. rewrite <- Ht. left.
Qed.

Lemma dedup_first_covers seen cs c :
  c ∈ cs → dedup_key c ∈ seen ∨ ∃ t, t ∈ dedup_first seen cs ∧ dedup_key t = dedup_key c.
Proof.
  revert seen. induction cs as [|d cs IH]; intros seen; simpl; [by intros ?%elem_of_nil|].
  intros [->|Hin]%elem_of_cons.
  - case_decide; [by left|]. right. exists d. split; [left|done].
  - case_decide as Hd.
    + by apply IH.
    + destruct (IH (dedup_key d :: seen) Hin) as [[Heq|?]%elem_of_cons|(t & Ht & Hk)].
      * right. exists d. split; [left|done].
      * by left.
      * right. exists t. split; [by right|done].
Qed.

Lemma dedup_first_sublist seen cs : dedup_first seen cs `sublist_of` cs.
Proof.
  revert seen. induction cs as [|c cs IH]; intros seen; simpl; [done|].
  case_decide; [by apply sublist_cons|by apply sublist_skip].
Qed.

(** *** The author handle *)

Section Handle.
Context `{CharDB}.

Lemma word_run_spec n s :
  Forall (λ c, isword c = true) (word_run n s) ∧ length (word_run n s) ≤ n.
Proof.
  revert s. induction n as [|n IH]; intros [|c s]; simpl;
    try (split; [constructor|lia]).
  destruct (isword c) eqn:Hc; [|split; [constructor|simpl; lia]].
  destruct (IH s) as [Hw Hl]. split; [by constructor|simpl; lia].
Qed.

(** A match of [@\w{1,15}] is ["@"] and then 1 to 15 word characters. *)
Lemma re_search_handle_shape s m :
  re_search_handle s = Some m →
  ∃ w, m = AT :: w ∧ Forall (λ c, isword c = true) w ∧ 1 ≤ length w ≤ 15.
Proof.
  induction s as [|c s IH]; cbn [re_search_handle]; [done|].
  destruct (c =? AT)%N; [|exact IH].
  destruct (word_run_spec 15 s) as [Hw Hl].
  destruct (word_run 15 s) as [|d w] eqn:E; [exact IH|].
  intros [= <-]. exists (d :: w). split; [done|]. split; [done|]. simpl in *. lia.
Qed.

(** After the [try] block the handle is the sentinel or a match; it is the
    sentinel whenever the block raised. *)
Lemma handle_try_cases art :
  (handle_faulted art → extract_handle art = UNKNOWN) ∧
  (extract_handle art = UNKNOWN ∨
   ∃ s, re_search_handle s = Some (extract_handle art)).
Proof.
  unfold handle_faulted, extract_handle, handle_try, hbind, await, get_handle,
    set_handle, hret.
  destruct (user_count art) as [n|]; simpl; [|by split; [|left]].
  destruct (0 <? n); simpl.
  - destruct (user_inner_text art) as [raw|]; simpl; [|by split; [|left]].
    destruct (re_search_handle (strip raw)) as [m|] eqn:Em; simpl.
    + case_decide as Hm; simpl.
      * destruct (art_inner_text art) as [raw_all|]; simpl; [|by split; [|left]].
        destruct (re_search_handle (strip raw_all)) as [m2|] eqn:Em2; simpl;
          (split; [done|]); [right; eauto|by left].
      * split; [done|]. right; eauto.
    + destruct (art_inner_text art) as [raw_all|]; simpl; [|by split; [|left]].
      destruct (re_search_handle (strip raw_all)) as [m2|] eqn:Em2; simpl;
        (split; [done|]); [right; eauto|by left].
  - destruct (art_inner_text art) as [raw_all|]; simpl; [|by split; [|left]].
    destruct (re_search_handle (strip raw_all)) as [m2|] eqn:Em2; simpl;
      (split; [done|]); [right; eauto|by left].
Qed.

Lemma extract_handle_no_colon art : isword COLON = false → COLON ∉ extract_handle art.
Proof.
  intros Hcolon. destruct (handle_try_cases art) as [_ [->|(s & Hs)]].
  - apply (bool_decide_unpack _). by vm_compute.
  - apply re_search_handle_shape in Hs as (w & -> & Hw & _).
    apply not_elem_of_cons. split; [done|].
    intros Hin. rewrite Forall_forall in Hw. specialize (Hw _ Hin). congruence.
Qed.
End Handle.

Lemma structured_seen_key_inj (a b : Tweet) :
  COLON ∉ handle a → COLON ∉ handle b →
  structured_seen_key a = structured_seen_key b ↔ dedup_key a = dedup_key b.
Proof.
  unfold structured_seen_key, dedup_key. intros Ha Hb. split; [|by intros [= -> ->]].
  change (str "::") with [COLON; COLON].
  generalize (take 80 (text a)) (take 80 (text b)). intros p q.
  revert Ha Hb. generalize (handle a) (handle b). intros h1.
  induction h1 as [|c h1 IH]; intros [|d h2] Ha Hb; simpl.
  - by intros [= ->].
  - intros [= <- _]. exfalso. apply Hb. left.
  - intros [= -> _]. exfalso. apply Ha. left.
  - apply not_elem_of_cons in Ha as [_ Ha]. apply not_elem_of_cons in Hb as [_ Hb].
    intros [= -> Heq]. by injection (IH h2 Ha Hb Heq) as -> ->.
Qed.

(** *** The two loops *)

Section ExtractorFacts.
Context `{CharDB}.

Lemma fallback_step_cand st node :
  fallback_step st node =
  c ← fallback_candidate node;
  mret (match c with Some t => emit (fallback_seen_key t) t st | None => st end).
Proof.
  unfold fallback_step, fallback_candidate. destruct node as [raw|]; simpl; [|done].
  by destruct (length (re_sub_ws (strip raw)) <? 20).
Qed.

Lemma structured_step_cand st art :
  structured_step st art =
  c ← structured_candidate art;
  mret (match c with Some t => emit (structured_seen_key t) t st | None => st end).
Proof.
  unfold structured_step, structured_candidate.
  destruct (art_chunks art) as [[|chunk chunks]|]; simpl; [done| |done].
  by destruct (length _ <? 20).
Qed.

Lemma scrape_fallback_collect page :
  scrape_fallback page =
  (λ cs, tweets (emit_all fallback_seen_key cs (mkScrape [] ∅))) <$>
  collect fallback_candidate (take 200 (text_nodes page)).
Proof.
  unfold scrape_fallback. rewrite take_min_length.
  rewrite (for_each_collect fallback_seen_key fallback_candidate)
    by apply fallback_step_cand.
  by destruct (collect _ _).
Qed.

Lemma scrape_structured_collect page :
  scrape_structured page =
  (λ cs, tweets (emit_all structured_seen_key cs (mkScrape [] ∅))) <$>
  collect structured_candidate (take 180 (articles page)).
Proof.
  unfold scrape_structured. rewrite take_min_length.
  rewrite (for_each_collect structured_seen_key structured_candidate)
    by apply structured_step_cand.
  by destruct (collect _ _).
Qed.

Lemma fallback_candidate_good node t :
  fallback_candidate node = Returned (Some t) →
  handle t = UNKNOWN ∧ is_normalized (text t) = true ∧ 20 ≤ length (text t).
Proof.
  unfold fallback_candidate. destruct node as [raw|]; simpl; [|done].
  destruct (Nat.ltb_spec (length (re_sub_ws (strip raw))) 20); [done|].
  intros [= <-]. simpl. split; [done|]. split; [apply is_normalized_sub_strip|done].
Qed.

Lemma structured_candidate_good art t :
  structured_candidate art = Returned (Some t) →
  handle t = extract_handle art ∧ is_normalized (text t) = true ∧ 20 ≤ length (text t).
Proof.
  unfold structured_candidate.
  destruct (art_chunks art) as [[|chunk chunks]|]; simpl; [done| |done].
  match goal with |- context [length ?s <? 20] => destruct (Nat.ltb_spec (length s) 20) end;
    [done|].
  intros [= <-]. simpl. split; [done|]. split; [apply is_normalized_strip_sub|done].
Qed.

(** Every emitted post is one of the candidates of the page. *)
Lemma scrape_tweets_from_candidates page out :
  scrape_tweets page = Returned out →
  ∃ cands, candidates page = Returned cands ∧ ∀ t, t ∈ out → t ∈ cands.
Proof.
  unfold scrape_tweets, candidates.
  rewrite scrape_fallback_collect, scrape_structured_collect.
  destruct (length (articles page) =? 0).
  - destruct (collect _ _) as [cs|]; simpl; [|done]. intros [= <-].
    exists cs. split; [done|]. intros t [Hin|Hin]%emit_all_elem; [|done].
    by apply elem_of_nil in Hin.
  - destruct (collect _ _) as [cs|]; simpl; [|done]. intros [= <-].
    exists cs. split; [done|]. intros t [Hin|Hin]%emit_all_elem; [|done].
    by apply elem_of_nil in Hin.
Qed.

Lemma candidates_good page cands :
  candidates page = Returned cands →
  Forall (λ t, is_normalized (text t) = true ∧ 20 ≤ length (text t)) cands.
Proof.
  unfold candidates. destruct (length (articles page) =? 0).
  - apply collect_Forall. intros node t Ht. by apply fallback_candidate_good in Ht as (_ & ?).
  - apply collect_Forall. intros art t Ht. by apply structured_candidate_good in Ht as (_ & ?).
Qed.

(** With [:] not a word character, the strings put in [seen] identify the
    dedup keys, and the output is the list of first candidates. *)
Lemma scrape_tweets_candidates page :
  isword COLON = false →
  scrape_tweets page = dedup_first [] <$> candidates page.
Proof.
  intros Hcolon. unfold scrape_tweets, candidates.
  rewrite scrape_fallback_collect, scrape_structured_collect.
  destruct (length (articles page) =? 0).
  - destruct (collect _ _) as [cs|] eqn:E; simpl; [|done]. f_equal.
    rewrite (emit_all_dedup _ (λ t, handle t = UNKNOWN) cs _ []); [done| | |].
    + intros a b Ha Hb. unfold fallback_seen_key, dedup_key. rewrite Ha, Hb.
      split; [by intros ->|by intros [= ->]].
    + eapply collect_Forall; [|exact E].
      intros node t Ht. by apply fallback_candidate_good in Ht as (? & _).
    + intros t _. simpl. rewrite elem_of_nil. set_solver.
  - destruct (collect _ _) as [cs|] eqn:E; simpl; [|done]. f_equal.
    rewrite (emit_all_dedup _ (λ t, COLON ∉ handle t) cs _ []); [done| | |].
    + intros a b Ha Hb. by apply structured_seen_key_inj.
    + eapply collect_Forall; [|exact E].
      intros art t Ht. apply structured_candidate_good in Ht as (-> & _).
      by apply extract_handle_no_colon.
    + intros t _. simpl. rewrite elem_of_nil. set_solver.
Qed.
End ExtractorFacts.

(** C8. Every post of the output, in either mode, has a whitespace-normalized
    text of at least 20 characters. *)
Theorem scrape_tweets_text_normalized `{CharDB} (page : Page) (out : list Tweet) :
  scrape_tweets page = Returned out →
  ∀ t, t ∈ out → ws_normalized (text t) ∧ 20 ≤ length (text t).
Proof.
  intros Hout t Ht.
  destruct (scrape_tweets_from_candidates page out Hout) as (cands & Hc & Hsub).
  pose proof (candidates_good page cands Hc) as Hgood.
  rewrite Forall_forall in Hgood. destruct (Hgood t (Hsub t Ht)) as [Hn Hl].
  split; [by apply is_normalized_spec|done].
Qed.

(** C5. The output is the list of the first candidates of each dedup key
    (author handle, first 80 characters of the text), in traversal order:
    its dedup keys are pairwise distinct, each post is the first candidate
    with its key, and every candidate has its key in the output. *)
Theorem scrape_tweets_dedup `{CharDB} (page : Page) (out : list Tweet) :
  isword COLON = false →
  scrape_tweets page = Returned out →
  ∃ cands,
    candidates page = Returned cands ∧
    out = dedup_first [] cands ∧
    NoDup (dedup_key <$> out) ∧
    (∀ t, t ∈ out →
       ∃ l1 l2, cands = l1 ++ (t :: l2) ∧ (dedup_key t ∉ (dedup_key <$> l1))) ∧
    (∀ c, c ∈ cands → ∃ t, t ∈ out ∧ dedup_key t = dedup_key c).
Proof.
  intros Hcolon Hout. rewrite scrape_tweets_candidates in Hout by done.
  destruct (candidates page) as [cands|]; simpl in Hout; [|done].
  injection Hout as <-. exists cands. split; [done|]. split; [done|].
  split; [apply dedup_first_NoDup|]. split.
  - intros t Ht. apply dedup_first_first in Ht as (l1 & l2 & ? & _ & ?). eauto.
  - intros c Hc. destruct (dedup_first_covers [] cands c Hc) as [Hin|?]; [|done].
    by apply elem_of_nil in Hin.
Qed.

Lemma scrape_tweets_text_normalized_witness :
  let page := mkPage [] [Returned (str "  Tariffs   are bad  for everyone ")] in
  let t := mkTweet UNKNOWN (str "Tariffs are bad for everyone") in
  scrape_tweets (H:=ascii_db) page = Returned [t] ∧
  ws_normalized (H:=ascii_db) (text t) ∧ 20 ≤ length (text t).
Proof.
  intros page t.
  assert (Hout : scrape_tweets (H:=ascii_db) page = Returned [t]) by (vm_compute; reflexivity).
  split; [exact Hout|].
  apply (scrape_tweets_text_normalized (H:=ascii_db) page [t] Hout). left.
Defined.

Example short_fragment_excluded :
  scrape_tweets (H:=ascii_db) (mkPage [] [Returned (str "  too   short   ")]) = Returned [].
Proof. vm_compute. reflexivity. Qed.

Lemma scrape_tweets_dedup_witness :
  let body :=
    "Tariffs are a tax on consumers and they raise prices for every family in this country"%string in
  let post tail :=
    mkArticle (Returned [str body; str tail]) (Returned 1) (Returned (str "Ann @ann_lee")) Raised in
  let page := mkPage [post "today"%string; post "tomorrow"%string] [] in
  let first := mkTweet (str "@ann_lee") (str (body ++ " today")) in
  ascii_isword COLON = false ∧
  scrape_tweets (H:=ascii_db) page = Returned [first] ∧
  ∃ cands, candidates (H:=ascii_db) page = Returned cands ∧ length cands = 2 ∧
           [first] = dedup_first [] cands.
Proof.
  intros body post page first.
  assert (Hout : scrape_tweets (H:=ascii_db) page = Returned [first])
    by (vm_compute; reflexivity).
  split; [reflexivity|]. split; [exact Hout|].
  destruct (scrape_tweets_dedup (H:=ascii_db) page [first] eq_refl Hout)
    as (cands & Hc & Hd & _).
  exists cands. split; [exact Hc|]. split; [|exact Hd].
  assert (Hc' : candidates (H:=ascii_db) page =
                Returned [first; mkTweet (str "@ann_lee") (str (body ++ " tomorrow"))])
    by (vm_compute; reflexivity).
  rewrite Hc' in Hc. by injection Hc as <-.
Defined.



(** C2, as the code has it. In structured mode the pass aborts exactly when
    reading the text fragments of one of the first 180 containers raises. An
    error raised while the author handle is extracted is caught: it never
    aborts the pass and does not skip the container, which becomes a
    candidate with the sentinel handle. *)
Theorem structured_faults `{CharDB} (page : Page) :
  (scrape_structured page = Raised ↔
   ∃ art, art ∈ take 180 (articles page) ∧ art_chunks art = Raised) ∧
  (∀ art chunks,
     art ∈ take 180 (articles page) →
     handle_faulted art →
     art_chunks art = Returned chunks → chunks ≠ [] →
     let text := strip (re_sub_ws (join [SP] (strip <$> chunks))) in
     20 ≤ length text →
     extract_handle art = UNKNOWN ∧
     structured_candidate art = Returned (Some (mkTweet UNKNOWN text))).
Proof.
  split.
  - rewrite scrape_structured_collect.
    destruct (collect _ _) as [cs|] eqn:E; simpl.
    + split; [done|]. intros (art & Hin & Hr).
      assert (collect structured_candidate (take 180 (articles page)) = Raised); [|congruence].
      apply collect_Raised. exists art. split; [done|].
      unfold structured_candidate. by rewrite Hr.
    + split; [|done]. intros _.
      apply collect_Raised in E as (art & Hin & Hr). exists art. split; [done|].
      unfold structured_candidate in Hr.
      destruct (art_chunks art) as [[|chunk chunks]|]; simpl in Hr; done.
  - intros art chunks _ Hfault Hchunks Hne text Hlen.
    destruct (handle_try_cases art) as [Hh _]. specialize (Hh Hfault).
    split; [done|]. unfold structured_candidate. rewrite Hchunks, Hh. simpl.
    destruct chunks as [|chunk chunks]; [done|]. fold text.
    by rewrite (proj2 (Nat.ltb_ge _ _) Hlen).
Qed.

(** A container whose handle extraction raises is emitted all the same, and
    a container whose text cannot be read aborts the pass, also for the
    containers that could be read. *)
Lemma structured_fault_not_skipped :
  let text := str "Tariffs are bad for everyone here" in
  let faulty := mkArticle (Returned [text]) Raised (Returned []) (Returned []) in
  let unreadable := mkArticle Raised (Returned 0) (Returned []) (Returned []) in
  let sound := mkArticle (Returned [text]) (Returned 0) (Returned []) (Returned []) in
  handle_faulted (H:=ascii_db) faulty ∧
  scrape_tweets (H:=ascii_db) (mkPage [faulty] []) = Returned [mkTweet UNKNOWN text] ∧
  scrape_tweets (H:=ascii_db) (mkPage [sound] []) = Returned [mkTweet UNKNOWN text] ∧
  scrape_tweets (H:=ascii_db) (mkPage [unreadable; sound] []) = Raised.
Proof. repeat split; vm_compute; reflexivity. Qed.

(** ** The run *)

Section Run.
Context `{CharDB}.

(** The counts of a run are those of its posts: non-negative, and their
    sum is the number of posts. *)
Lemma classify_all_counts sia tweets :
  let r := classify_all sia tweets in
  length r.1 = length tweets ∧
  (0 ≤ n_positive r.2)%Z ∧ (0 ≤ n_negative r.2)%Z ∧ (0 ≤ n_neutral r.2)%Z ∧
  (n_positive r.2 + n_negative r.2 + n_neutral r.2)%Z = Z.of_nat (length tweets).
Proof.
  unfold classify_all.
  induction tweets as [|t tweets IH] using rev_ind; [by vm_compute|].
  rewrite foldl_snoc. cbn zeta in *. cbn [fst snd].
  destruct IH as (Hl & Hp & Hn & Hu & Hsum).
  rewrite !length_app, Hl. split; [done|].
  simpl length. rewrite Nat2Z.inj_add.
  destruct (classify_stance (text t) sia); simpl; lia.
Qed.

Lemma scrape_tweets_length page out : scrape_tweets page = Returned out → length out ≤ 200.
Proof.
  unfold scrape_tweets.
  rewrite scrape_fallback_collect, scrape_structured_collect.
  destruct (length (articles page) =? 0);
    (destruct (collect _ _) as [cs|] eqn:E; simpl; [|done]); intros [= <-];
    (etrans; [apply emit_all_length|]); simpl;
    apply collect_length in E; rewrite length_take in E; lia.
Qed.

(** In a run, the binary64 quotients that [main] hands to [math.floor] have
    the floors that [percentages] computes. *)
Lemma run_percentages_float sia page out :
  scrape_tweets page = Returned out →
  let counts := (classify_all sia out).2 in
  let total := (1 `max` (n_positive counts + n_negative counts + n_neutral counts))%Z in
  floor_is (pos_pct (percentages counts)) (true_div (100 * n_positive counts) total) = true ∧
  floor_is (neg_pct (percentages counts)) (true_div (100 * n_negative counts) total) = true.
Proof.
  intros Hout counts total. apply scrape_tweets_length in Hout.
  destruct (classify_all_counts sia out) as (_ & Hp & Hn & Hu & Hsum).
  fold counts in Hp, Hn, Hu, Hsum.
  split; apply floor_div_float; subst total; lia.
Qed.

(** C9. [main] fails with the content-unavailable error exactly when the
    page that the content loader leaves shows no content marker. A loaded
    page from which no post qualifies is not an error: the run completes,
    with an export of the header row alone and the report. *)
Theorem main_content_unavailable (sia : SentimentIntensityAnalyzer) (b : Browser) :
  (main sia b = ContentUnavailable ↔ marker_count (load_results b) = 0) ∧
  (marker_count (load_results b) ≠ 0 →
   scrape_tweets (load_results b) = Returned [] →
   main sia b = Completed
     {| collected := 0;
        summary := str ("On #Tariffs, tweets skew mixed (0% negative, 0% positive, "
                        ++ "100% neutral), with frequent mentions of mixed themes.");
        final_counts := mkCounts 0 0 0;
        csv_rows := [csv_header] |}).
Proof.
  unfold main. split.
  - destruct (Nat.eqb_spec (marker_count (load_results b)) 0) as [Hz|Hnz]; [done|].
    split; [|done]. destruct (scrape_tweets _) as [tweets|]; [|done].
    by destruct (classify_all sia tweets).
  - intros Hnz ->. apply Nat.eqb_neq in Hnz. rewrite Hnz.
    vm_compute. reflexivity.
Qed.

(** A completed run exports the header and one row for each post. *)
Lemma main_completed sia b tweets :
  marker_count (load_results b) ≠ 0 →
  scrape_tweets (load_results b) = Returned tweets →
  ∃ r, main sia b = Completed r ∧ collected r = length tweets ∧
       head (csv_rows r) = Some csv_header ∧ length (csv_rows r) = S (length tweets).
Proof.
  intros Hnz Hs. unfold main. apply Nat.eqb_neq in Hnz. rewrite Hnz, Hs.
  pose proof (classify_all_counts sia tweets) as (Hl & _).
  destruct (classify_all sia tweets) as [classified counts]. simpl in Hl.
  eexists. split; [done|]. simpl. by rewrite length_fmap, Hl.
Qed.
End Run.

Lemma main_content_unavailable_witness :
  let sia := {| polarity_compound := λ _, 0%Q |} in
  let gated := mkPage [] [] in
  let loaded := mkPage [] [Returned (str "Log in"); Returned (str "Sign up")] in
  let desktop_only_gated :=
    mkBrowser (λ url, if decide (url = mobile) then loaded else gated) id in
  main (H:=ascii_db) sia (mkBrowser (λ _, gated) id) = ContentUnavailable ∧
  marker_count (load_results desktop_only_gated) ≠ 0 ∧
  scrape_tweets (H:=ascii_db) (load_results desktop_only_gated) = Returned [] ∧
  ∃ r, main (H:=ascii_db) sia desktop_only_gated = Completed r ∧ csv_rows r = [csv_header].
Proof.
  intros sia gated loaded b.
  assert (Hm : marker_count (load_results b) ≠ 0) by (vm_compute; discriminate).
  assert (Hs : scrape_tweets (H:=ascii_db) (load_results b) = Returned [])
    by (vm_compute; reflexivity).
  split.
  { apply (main_content_unavailable (H:=ascii_db) sia (mkBrowser (λ _, gated) id)).
    reflexivity. }
  split; [exact Hm|]. split; [exact Hs|].
  eexists. split; [exact (proj2 (main_content_unavailable (H:=ascii_db) sia b) Hm Hs)|].
  reflexivity.
Defined.

(** * Further properties *)

(** ** Whitespace normalization, continued *)

Section NormalizeMore.
Context `{CharDB}.

Lemma lstrip_id s : (∀ c, head s = Some c → isspace c = false) → lstrip s = s.
Proof. destruct s as [|c s]; simpl; [done|]. intros Hc. by rewrite (Hc c eq_refl). Qed.

Lemma rstrip_id s : (∀ c, last s = Some c → isspace c = false) → rstrip s = s.
Proof.
  intros Hc. unfold rstrip. rewrite lstrip_id, reverse_involutive; [done|].
  intros c. rewrite head_reverse. apply Hc.
Qed.

Lemma spaces_ok_last s c : spaces_ok false s = true → last s = Some c → isspace c = false.
Proof.
  induction s as [|d s IH]; simpl; [done|].
  intros [Hd Hs]%andb_true_iff. destruct s as [|e s].
  - intros [= <-]. destruct (isspace d); [|done]. by rewrite andb_false_r in Hd.
  - rewrite last_cons_cons. by apply IH.
Qed.

Lemma sub_ws_id b s :
  spaces_ok false s = true →
  (b = true → ∀ c, head s = Some c → isspace c = false) →
  sub_ws_from b s = s.
Proof.
  revert b. induction s as [|c s IH]; intros b; simpl; [done|].
  intros [Hc Hs]%andb_true_iff Hb. destruct (isspace c) eqn:Hws.
  - destruct b; [by rewrite (Hb eq_refl c eq_refl) in Hws|].
    apply andb_true_iff in Hc as [->%N.eqb_eq Hnext]. f_equal.
    apply IH; [done|]. intros _ d Hd. destruct s as [|e s]; [done|].
    injection Hd as <-. by apply negb_true_iff.
  - f_equal. by apply IH.
Qed.

(** A normalized text is left as it is by both operations. *)
Lemma is_normalized_fixed s : is_normalized s = true → strip s = s ∧ re_sub_ws s = s.
Proof.
  unfold is_normalized. intros [Hhead Hs]%andb_true_iff. split.
  - unfold strip. rewrite lstrip_id.
    + apply rstrip_id. intros c. by apply spaces_ok_last.
    + intros c Hc. destruct s as [|d s]; [done|]. injection Hc as <-.
      by apply negb_true_iff.
  - unfold re_sub_ws. by apply sub_ws_id.
Qed.

(** Normalizing a normalized text changes nothing, in the order of either
    mode. *)
Theorem normalize_idempotent (s : pystr) :
  re_sub_ws (strip (re_sub_ws (strip s))) = re_sub_ws (strip s) ∧
  strip (re_sub_ws (strip (re_sub_ws s))) = strip (re_sub_ws s).
Proof.
  destruct (is_normalized_fixed _ (is_normalized_sub_strip s)) as [E1 E2].
  destruct (is_normalized_fixed _ (is_normalized_strip_sub s)) as [E3 E4].
  split; [by rewrite E1, E2|by rewrite E4, E3].
Qed.

Lemma lstrip_length s : length (lstrip s) ≤ length s.
Proof. induction s as [|c s IH]; simpl; [done|]. destruct (isspace c); simpl; lia. Qed.

Lemma strip_length s : length (strip s) ≤ length s.
Proof.
  unfold strip, rstrip. rewrite length_reverse.
  etrans; [apply lstrip_length|]. rewrite length_reverse. apply lstrip_length.
Qed.

Lemma sub_ws_length b s : length (sub_ws_from b s) ≤ length s.
Proof.
  revert b. induction s as [|c s IH]; intros b; simpl; [done|].
  destruct (isspace c); [destruct b|]; simpl;
    [specialize (IH true)|specialize (IH true)|specialize (IH false)]; lia.
Qed.

(** Normalization never lengthens a text, so a fragment with fewer than 20
    characters is dropped whatever it contains. *)
Theorem short_fragment_dropped (st : Scrape) (raw : pystr) :
  length raw < 20 →
  length (re_sub_ws (strip raw)) ≤ length raw ∧
  fallback_step st (Returned raw) = Returned st.
Proof.
  intros Hlen.
  assert (Hn : length (re_sub_ws (strip raw)) ≤ length raw).
  { etrans; [apply sub_ws_length|apply strip_length]. }
  split; [done|]. unfold fallback_step. simpl.
  by rewrite (proj2 (Nat.ltb_lt _ _)) by lia.
Qed.

Lemma nonspace_app s1 s2 : nonspace (s1 ++ s2) = nonspace s1 ++ nonspace s2.
Proof. unfold nonspace. apply List.filter_app. Qed.

Lemma nonspace_all_space w : Forall (λ c, isspace c = true) w → nonspace w = [].
Proof. induction 1 as [|c w Hc _ IH]; simpl; [done|]. by rewrite Hc. Qed.

Lemma nonspace_strip s : nonspace (strip s) = nonspace s.
Proof.
  unfold strip.
  destruct (lstrip_spec s) as (w1 & E1 & Hw1).
  destruct (rstrip_spec (lstrip s)) as (w2 & E2 & Hw2).
  rewrite E1 at 2. rewrite E2 at 2.
  by rewrite !nonspace_app, (nonspace_all_space w1), (nonspace_all_space w2), app_nil_r.
Qed.

Lemma nonspace_sub_ws b s : isspace SP = true → nonspace (sub_ws_from b s) = nonspace s.
Proof.
  intros Hsp. revert b. induction s as [|c s IH]; intros b; simpl; [done|].
  destruct (isspace c) eqn:Hc; [destruct b|]; simpl; rewrite ?Hsp, ?Hc; simpl;
    by rewrite IH.
Qed.

Lemma nonspace_join chunks :
  isspace SP = true → nonspace (join [SP] chunks) = concat (nonspace <$> chunks).
Proof.
  intros Hsp. induction chunks as [|x chunks IH]; [done|].
  destruct chunks as [|y chunks]; [by rewrite fmap_cons; simpl; rewrite app_nil_r|].
  change (join [SP] (x :: y :: chunks)) with (x ++ [SP] ++ join [SP] (y :: chunks)).
  rewrite !nonspace_app, IH. simpl. by rewrite Hsp.
Qed.

(** Normalization touches whitespace only: the other characters of the
    fragment, or of the chunks of a container, are kept in order. *)
Theorem normalize_keeps_nonspace (raw : pystr) (chunks : list pystr) :
  isspace SP = true →
  nonspace (re_sub_ws (strip raw)) = nonspace raw ∧
  nonspace (strip (re_sub_ws (join [SP] (strip <$> chunks)))) = concat (nonspace <$> chunks).
Proof.
  intros Hsp. split.
  - unfold re_sub_ws. by rewrite nonspace_sub_ws, nonspace_strip.
  - unfold re_sub_ws. rewrite nonspace_strip, nonspace_sub_ws, nonspace_join by done.
    f_equal. rewrite <- list_fmap_compose. apply list_fmap_ext.
    intros _ x _. apply nonspace_strip.
Qed.
End NormalizeMore.

Lemma short_fragment_dropped_witness :
  fallback_step (H:=ascii_db) (mkScrape [] ∅) (Returned (str "short one")) =
  Returned (mkScrape [] ∅).
Proof.
  apply (short_fragment_dropped (H:=ascii_db) (mkScrape [] ∅) (str "short one")).
  vm_compute. lia.
Defined.

Lemma normalize_keeps_nonspace_witness :
  ascii_isspace SP = true ∧
  nonspace (H:=ascii_db) (re_sub_ws (H:=ascii_db) (strip (H:=ascii_db) (str "  a  b c ")))
  = str "abc".
Proof.
  split; [reflexivity|].
  rewrite (proj1 (normalize_keeps_nonspace (H:=ascii_db) (str "  a  b c ") [] eq_refl)).
  reflexivity.
Defined.

(** ** Post extractor, continued *)

Lemma emit_all_sublist enc cs st :
  ∃ l, tweets (emit_all enc cs st) = tweets st ++ l ∧ l `sublist_of` cs.
Proof.
  revert st. induction cs as [|c cs IH]; intros st.
  - exists []. split; [by rewrite app_nil_r|done].
  - change (emit_all enc (c :: cs) st) with (emit_all enc cs (emit (enc c) c st)).
    destruct (IH (emit (enc c) c st)) as (l & -> & Hl).
    unfold emit. case_bool_decide; simpl.
    + exists l. split; [done|by apply sublist_cons].
    + exists (c :: l). split; [by rewrite <- app_assoc|by apply sublist_skip].
Qed.

Lemma dedup_first_id seen cs :
  NoDup (dedup_key <$> cs) → (∀ c, c ∈ cs → dedup_key c ∉ seen) → dedup_first seen cs = cs.
Proof.
  revert seen. induction cs as [|c cs IH]; intros seen; [done|].
  rewrite fmap_cons. intros [Hc Hnd]%NoDup_cons Hseen. cbn [dedup_first].
  rewrite decide_False by (apply Hseen; left). f_equal.
  apply IH; [done|]. intros d Hd. apply not_elem_of_cons. split.
  - intros Heq. apply Hc. rewrite <- Heq. by apply list_elem_of_fmap_2.
  - apply Hseen. by right.
Qed.

Section ExtractorMore.
Context `{CharDB}.

(** Every handle of the output is the sentinel or ["@"] followed by 1 to 15
    word characters. *)
Theorem scrape_tweets_handle_shape (page : Page) (out : list Tweet) :
  scrape_tweets page = Returned out →
  ∀ t, t ∈ out →
    handle t = UNKNOWN ∨
    ∃ w, handle t = AT :: w ∧ Forall (λ c, isword c = true) w ∧ 1 ≤ length w ≤ 15.
Proof.
  intros Hout t Ht.
  destruct (scrape_tweets_from_candidates page out Hout) as (cands & Hc & Hsub).
  specialize (Hsub t Ht). revert Hc. unfold candidates.
  destruct (length (articles page) =? 0); intros Hc.
  - left. eapply (collect_Forall (λ t, handle t = UNKNOWN)) in Hc.
    + rewrite Forall_forall in Hc. by apply Hc.
    + intros node u Hu. by apply fallback_candidate_good in Hu as (? & _).
  - eapply (collect_Forall (λ t, ∃ art, handle t = extract_handle art)) in Hc.
    + rewrite Forall_forall in Hc. destruct (Hc t Hsub) as (art & ->).
      destruct (handle_try_cases art) as [_ [?|(s & Hs)]]; [by left|right].
      by apply re_search_handle_shape in Hs.
    + intros art u Hu. apply structured_candidate_good in Hu as (? & _). eauto.
Qed.

(** A match in the user-name block is the handle, and then the text of the
    whole container is not read: the handle is the same whatever
    [art.inner_text()] would return, also when it would raise. *)
Theorem extract_handle_user_block (art : Article) (n : nat) (raw m : pystr) :
  user_count art = Returned n → 0 < n →
  user_inner_text art = Returned raw →
  re_search_handle (strip raw) = Some m → m ≠ UNKNOWN →
  extract_handle art = m ∧
  ∀ other, extract_handle (mkArticle (art_chunks art) (user_count art)
                                     (user_inner_text art) other) = m.
Proof.
  intros Hn Hpos Hraw Hm Hne.
  assert (Hgen : ∀ a, user_count a = Returned n → user_inner_text a = Returned raw →
                      extract_handle a = m).
  { intros a Ha1 Ha2.
    unfold extract_handle, handle_try, hbind, await, get_handle, set_handle, hret.
    rewrite Ha1. simpl. rewrite (proj2 (Nat.ltb_lt 0 n) Hpos). simpl.
    rewrite Ha2. simpl. rewrite Hm. simpl. by rewrite decide_False. }
  split; [by apply Hgen|]. intros other. by apply Hgen.
Qed.

(** Without a match in the user-name block (no block, or no match in its
    text) the handle is the leftmost match in the text of the whole
    container, and the sentinel when there is none. *)
Theorem extract_handle_container_text (art : Article) (raw_all : pystr) :
  (user_count art = Returned 0 ∨
   ∃ n raw, user_count art = Returned n ∧ user_inner_text art = Returned raw ∧
            re_search_handle (strip raw) = None) →
  art_inner_text art = Returned raw_all →
  extract_handle art = default UNKNOWN (re_search_handle (strip raw_all)).
Proof.
  intros Huser Hall.
  unfold extract_handle, handle_try, hbind, await, get_handle, set_handle, hret.
  destruct Huser as [Hz|(n & raw & Hn & Hraw & Hnone)].
  - rewrite Hz. simpl. rewrite Hall. simpl.
    by destruct (re_search_handle (strip raw_all)).
  - rewrite Hn. simpl. destruct (0 <? n); simpl.
    + rewrite Hraw. simpl. rewrite Hnone. simpl. rewrite Hall. simpl.
      by destruct (re_search_handle (strip raw_all)).
    + rewrite Hall. simpl. by destruct (re_search_handle (strip raw_all)).
Qed.

(** The output keeps the traversal order of the candidates: nothing is
    reordered. *)
Theorem scrape_tweets_order (page : Page) (out : list Tweet) :
  scrape_tweets page = Returned out →
  ∃ cands, candidates page = Returned cands ∧ out `sublist_of` cands.
Proof.
  unfold scrape_tweets, candidates.
  rewrite scrape_fallback_collect, scrape_structured_collect.
  destruct (length (articles page) =? 0);
    (destruct (collect _ _) as [cs|]; simpl; [|done]); intros [= <-];
    exists cs; (split; [done|]).
  - by destruct (emit_all_sublist fallback_seen_key cs (mkScrape [] ∅)) as (l & -> & Hl).
  - by destruct (emit_all_sublist structured_seen_key cs (mkScrape [] ∅)) as (l & -> & Hl).
Qed.

(** Structured mode reads the first 180 containers only, and returns at most
    180 posts. *)
Theorem scrape_structured_cap (page : Page) :
  length (articles page) ≠ 0 →
  (∀ page', take 180 (articles page') = take 180 (articles page) →
            scrape_tweets page' = scrape_tweets page) ∧
  (∀ out, scrape_tweets page = Returned out → length out ≤ 180).
Proof.
  intros Hnz. apply Nat.eqb_neq in Hnz as Hnz'. split.
  - intros page' Htake.
    assert (Hnz2 : (length (articles page') =? 0) = false).
    { apply Nat.eqb_neq. intros Hz. apply Hnz.
      apply (f_equal length) in Htake. rewrite !length_take in Htake. lia. }
    unfold scrape_tweets. rewrite Hnz', Hnz2.
    by rewrite !scrape_structured_collect, Htake.
  - intros out. unfold scrape_tweets. rewrite Hnz', scrape_structured_collect.
    destruct (collect _ _) as [cs|] eqn:E; simpl; [|done]. intros [= <-].
    etrans; [apply emit_all_length|]. simpl.
    apply collect_length in E. rewrite length_take in E. lia.
Qed.


Lemma scrape_fallback_dedup page :
  scrape_fallback page =
  dedup_first [] <$> collect fallback_candidate (take 200 (text_nodes page)).
Proof.
  rewrite scrape_fallback_collect.
  destruct (collect _ _) as [cs|] eqn:E; simpl; [|done]. f_equal.
  rewrite (emit_all_dedup _ (λ t, handle t = UNKNOWN) cs _ []); [done| | |].
  - intros a b Ha Hb. unfold fallback_seen_key, dedup_key. rewrite Ha, Hb.
    split; [by intros ->|by intros [= ->]].
  - eapply collect_Forall; [|exact E].
    intros node t Ht. by apply fallback_candidate_good in Ht as (? & _).
  - intros t _. simpl. rewrite elem_of_nil. set_solver.
Qed.

Lemma collect_fallback_texts (l : list Tweet) :
  Forall (λ t, handle t = UNKNOWN ∧ is_normalized (text t) = true ∧ 20 ≤ length (text t)) l →
  collect fallback_candidate ((λ t, Returned (text t)) <$> l) = Returned l.
Proof.
  induction 1 as [|t l (Hh & Hn & Hl) _ IH]; [done|].
  rewrite fmap_cons. cbn [collect]. rewrite IH.
  unfold fallback_candidate. simpl.
  destruct (is_normalized_fixed _ Hn) as [-> ->].
  rewrite (proj2 (Nat.ltb_ge _ _) Hl). simpl.
  destruct t as [h tx]. simpl in *. by subst h.
Qed.

(** Fallback mode is stable: a page made of the texts of the output gives
    back the same posts, in the same order. *)
Theorem scrape_fallback_rescrape (page : Page) (out : list Tweet) :
  length (articles page) = 0 →
  scrape_tweets page = Returned out →
  scrape_tweets (mkPage [] ((λ t, Returned (text t)) <$> out)) = Returned out.
Proof.
  intros Hz. unfold scrape_tweets at 1. rewrite Hz. simpl.
  rewrite scrape_fallback_dedup.
  destruct (collect _ _) as [cs|] eqn:E; simpl; [|done]. intros [= <-].
  assert (Hgood : Forall (λ t, handle t = UNKNOWN ∧ is_normalized (text t) = true
                               ∧ 20 ≤ length (text t)) cs).
  { eapply collect_Forall; [|exact E]. intros node t. apply fallback_candidate_good. }
  assert (Hout : Forall (λ t, handle t = UNKNOWN ∧ is_normalized (text t) = true
                              ∧ 20 ≤ length (text t)) (dedup_first [] cs)).
  { apply Forall_forall. intros t Ht. rewrite Forall_forall in Hgood. apply Hgood.
    eapply elem_of_sublist; [exact Ht|apply dedup_first_sublist]. }
  assert (Hlen : length (dedup_first [] cs) ≤ 200).
  { etrans; [apply sublist_length, dedup_first_sublist|].
    apply collect_length in E. rewrite length_take in E. lia. }
  unfold scrape_tweets. simpl. rewrite scrape_fallback_dedup. simpl.
  rewrite take_ge by (rewrite length_fmap; lia).
  rewrite collect_fallback_texts by done. simpl. f_equal.
  apply dedup_first_id; [apply dedup_first_NoDup|]. intros c _. apply not_elem_of_nil.
Qed.
End ExtractorMore.

Lemma scrape_tweets_handle_shape_witness :
  let body := str "Tariffs are a tax on consumers and nothing else" in
  let art := mkArticle (Returned [body]) (Returned 1)
                       (Returned (str "Ann Lee @ann_lee_with_a_very_long_name")) Raised in
  let t := mkTweet (str "@ann_lee_with_a_") body in
  scrape_tweets (H:=ascii_db) (mkPage [art] []) = Returned [t] ∧
  (handle t = UNKNOWN ∨
   ∃ w, handle t = AT :: w ∧ Forall (λ c, ascii_isword c = true) w ∧ 1 ≤ length w ≤ 15).
Proof.
  intros body art t.
  assert (Hout : scrape_tweets (H:=ascii_db) (mkPage [art] []) = Returned [t])
    by (vm_compute; reflexivity).
  split; [exact Hout|].
  apply (scrape_tweets_handle_shape (H:=ascii_db) (mkPage [art] []) [t] Hout). left.
Defined.

Lemma extract_handle_user_block_witness :
  let art := mkArticle (Returned []) (Returned 1) (Returned (str " Bob (@bob) ")) Raised in
  extract_handle (H:=ascii_db) art = str "@bob".
Proof.
  intros art.
  apply (extract_handle_user_block (H:=ascii_db) art 1 (str " Bob (@bob) ") (str "@bob"));
    try reflexivity; [lia|vm_compute; discriminate].
Defined.

Lemma extract_handle_container_text_witness :
  let art := mkArticle (Returned []) (Returned 1) (Returned (str "Bob"))
                       (Returned (str "Bob replying to @ann and @carl")) in
  extract_handle (H:=ascii_db) art = str "@ann".
Proof.
  intros art.
  rewrite (extract_handle_container_text (H:=ascii_db) art
             (str "Bob replying to @ann and @carl")); [reflexivity| |reflexivity].
  right. exists 1, (str "Bob"). repeat split; reflexivity.
Defined.

Lemma scrape_tweets_order_witness :
  let a := str "Second thoughts about tariffs" in
  let b := str "All about steel and aluminium" in
  let page := mkPage [] [Returned a; Returned b; Returned a] in
  scrape_tweets (H:=ascii_db) page = Returned [mkTweet UNKNOWN a; mkTweet UNKNOWN b] ∧
  ∃ cands, candidates (H:=ascii_db) page = Returned cands ∧
           [mkTweet UNKNOWN a; mkTweet UNKNOWN b] `sublist_of` cands.
Proof.
  intros a b page.
  assert (Hout : scrape_tweets (H:=ascii_db) page
                 = Returned [mkTweet UNKNOWN a; mkTweet UNKNOWN b])
    by (vm_compute; reflexivity).
  split; [exact Hout|]. exact (scrape_tweets_order (H:=ascii_db) page _ Hout).
Defined.

Lemma scrape_structured_cap_witness :
  let sound := mkArticle (Returned [str "hello"]) (Returned 0) (Returned []) (Returned []) in
  let unreadable := mkArticle Raised (Returned 0) (Returned []) (Returned []) in
  let page := mkPage (replicate 180 sound) [] in
  length (articles page) ≠ 0 ∧
  scrape_tweets (H:=ascii_db) (mkPage (replicate 180 sound ++ [unreadable]) [])
  = scrape_tweets (H:=ascii_db) page.
Proof.
  intros sound unreadable page.
  assert (Hnz : length (articles page) ≠ 0) by (vm_compute; discriminate).
  split; [exact Hnz|].
  apply (proj1 (scrape_structured_cap (H:=ascii_db) page Hnz)).
  vm_compute. reflexivity.
Defined.

Lemma scrape_fallback_rescrape_witness :
  let a := str "Second thoughts about tariffs" in
  let page := mkPage [] [Returned (str "  Second   thoughts about tariffs "); Returned a] in
  scrape_tweets (H:=ascii_db) page = Returned [mkTweet UNKNOWN a] ∧
  scrape_tweets (H:=ascii_db) (mkPage [] [Returned a]) = Returned [mkTweet UNKNOWN a].
Proof.
  intros a page.
  assert (Hout : scrape_tweets (H:=ascii_db) page = Returned [mkTweet UNKNOWN a])
    by (vm_compute; reflexivity).
  split; [exact Hout|].
  exact (scrape_fallback_rescrape (H:=ascii_db) page _ eq_refl Hout).
Defined.

(** ** Stance classifier, continued *)

Section ClassifierMore.
Context `{CharDB}.

Lemma stance_of_score_monotone (a b : Q) :
  (a <= b)%Q → (stance_rank (stance_of_score a) ≤ stance_rank (stance_of_score b))%Z.
Proof.
  intros Hab.
  destruct (stance_of_score_spec a) as (Ha1 & Ha2 & Ha3).
  destruct (stance_of_score_spec b) as (Hb1 & Hb2 & Hb3).
  destruct (stance_of_score a) eqn:Ea, (stance_of_score b) eqn:Eb; simpl; try lia; exfalso.
  - pose proof (proj1 Ha1 eq_refl). pose proof (proj1 Hb2 eq_refl). lra.
  - pose proof (proj1 Ha1 eq_refl). destruct (proj1 Hb3 eq_refl). lra.
  - destruct (proj1 Ha3 eq_refl). pose proof (proj1 Hb2 eq_refl). lra.
Qed.

(** The stance never gets lower when the scorer gives the text a higher
    compound score. *)
Theorem classify_stance_monotone (text : pystr) (sia1 sia2 : SentimentIntensityAnalyzer) :
  (polarity_compound sia1 text <= polarity_compound sia2 text)%Q →
  (stance_rank (classify_stance text sia1) ≤ stance_rank (classify_stance text sia2))%Z.
Proof.
  intros Hle.
  destruct (classify_stance_adjusted text sia1) as (s1 & Hs1 & ->).
  destruct (classify_stance_adjusted text sia2) as (s2 & Hs2 & ->).
  apply stance_of_score_monotone. rewrite Hs1, Hs2. unfold adjusted_score.
  destruct (any_in POS_TARIFF_HINTS (lower text)),
           (any_in NEG_TARIFF_HINTS (lower text)); lra.
Qed.

(** A hint of one side only decides the stance as soon as the scorer does
    not go the other way: positive for a compound score of 0 or more,
    negative for 0 or less. *)
Theorem classify_stance_one_hint (text : pystr) (sia : SentimentIntensityAnalyzer) :
  (any_in POS_TARIFF_HINTS (lower text) = true →
   any_in NEG_TARIFF_HINTS (lower text) = false →
   (0 <= polarity_compound sia text)%Q →
   classify_stance text sia = positive_stance) ∧
  (any_in POS_TARIFF_HINTS (lower text) = false →
   any_in NEG_TARIFF_HINTS (lower text) = true →
   (polarity_compound sia text <= 0)%Q →
   classify_stance text sia = negative_stance).
Proof.
  split; intros Hp Hn Hc;
    destruct (classify_stance_adjusted text sia) as (s & Hs & ->);
    unfold adjusted_score in Hs; rewrite Hp, Hn in Hs;
    apply stance_of_score_spec; lra.
Qed.

End ClassifierMore.

Lemma classify_stance_monotone_witness :
  let text := str "Tariffs again" in
  (stance_rank (classify_stance (H:=ascii_db) text {| polarity_compound := λ _, (-0.3)%Q |})
   ≤ stance_rank (classify_stance (H:=ascii_db) text {| polarity_compound := λ _, 0.1%Q |}))%Z.
Proof.
  intros text.
  apply (classify_stance_monotone (H:=ascii_db) text
           {| polarity_compound := λ _, (-0.3)%Q |} {| polarity_compound := λ _, 0.1%Q |}).
  vm_compute. discriminate.
Defined.

Lemma classify_stance_one_hint_witness :
  classify_stance (H:=ascii_db)
    (str "Tariffs are protecting American jobs and manufacturing, great policy!")
    {| polarity_compound := λ _, 0%Q |} = positive_stance.
Proof.
  apply (proj1 (classify_stance_one_hint (H:=ascii_db) _ {| polarity_compound := λ _, 0%Q |}));
    vm_compute; [reflexivity|reflexivity|discriminate].
Defined.

(** ** Theme ranker, continued *)

Lemma StronglySorted_irrefl_NoDup {A} (R : relation A) (l : list A) :
  (∀ x, ¬ R x x) → StronglySorted R l → NoDup l.
Proof.
  intros Hirr. induction 1 as [|x l Hs IH Hx]; constructor; [|done].
  intros Hin. rewrite Forall_forall in Hx. by apply (Hirr x), Hx.
Qed.

Lemma omap_length_le {A B} (f : A → option B) (l : list A) : length (omap f l) ≤ length l.
Proof. induction l as [|x l IH]; csimpl; [done|]. destruct (f x); csimpl; lia. Qed.

Section RankerMore.
Context `{CharDB}.

Lemma match_count_perm keys texts texts' :
  texts ≡ₚ texts' → match_count keys texts = match_count keys texts'.
Proof. induction 1; simpl; lia. Qed.

Lemma match_count_le keys texts : (match_count keys texts ≤ Z.of_nat (length texts))%Z.
Proof. induction texts as [|tx texts IH]; simpl; [done|]. destruct (any_in _ _); lia. Qed.

Lemma ranked_themes_ext texts texts' :
  (∀ t, theme_count texts t = theme_count texts' t) →
  ranked_themes texts = ranked_themes texts'.
Proof.
  intros Heq. rewrite !ranked_themes_eq. do 2 f_equal.
  apply list_fmap_ext. intros _ e _. by rewrite Heq.
Qed.

Lemma ranked_themes_length texts : length (ranked_themes texts) ≤ 7.
Proof.
  rewrite ranked_themes_eq. etrans; [apply omap_length_le|].
  rewrite sorted_desc_perm, length_fmap. by vm_compute.
Qed.

(** The ranking depends on the texts as a collection: their order does not
    matter. *)
Theorem top_themes_permutation (texts texts' : list pystr) (k : Z) :
  texts ≡ₚ texts' → top_themes texts k = top_themes texts' k.
Proof.
  intros Hp. unfold top_themes. rewrite (ranked_themes_ext texts texts'); [done|].
  intros t. unfold theme_count. destruct (keys_of THEMES t); [|done].
  by apply match_count_perm.
Qed.

(** With a negative [k] the result is the ranking without its last [-k]
    names, and it is empty from [k = -7] down. *)
Theorem top_themes_negative (texts : list pystr) (k : Z) :
  (k < 0)%Z →
  top_themes texts k
  = take (length (ranked_themes texts) - Z.to_nat (- k)) (ranked_themes texts) ∧
  ((k ≤ -7)%Z → top_themes texts k = []).
Proof.
  intros Hk.
  assert (E : top_themes texts k
              = take (length (ranked_themes texts) - Z.to_nat (- k)) (ranked_themes texts)).
  { unfold top_themes, slice_to. rewrite (proj2 (Z.leb_gt 0 k)) by done.
    by destruct (ranked_themes texts). }
  split; [done|]. intros Hk7. rewrite E.
  pose proof (ranked_themes_length texts).
  replace (length (ranked_themes texts) - Z.to_nat (- k)) with 0 by lia. done.
Qed.

(** The result never repeats a name and holds theme names only; from
    [k = 7] on it holds every theme that matches some text. *)
Theorem top_themes_members (texts : list pystr) (k : Z) :
  NoDup (top_themes texts k) ∧
  (∀ t, t ∈ top_themes texts k → t ∈ THEMES.*1) ∧
  ((7 ≤ k)%Z → ∀ t, t ∈ top_themes texts k ↔ (0 < theme_count texts t)%Z).
Proof.
  destruct (top_themes_prefix texts k) as (n & -> & Hn).
  assert (Hnd : NoDup (ranked_themes texts)).
  { apply (StronglySorted_irrefl_NoDup (ranks_before texts));
      [|apply ranked_themes_sorted].
    intros x [?|[_ ?]]; lia. }
  split; [exact (sublist_NoDup _ _ Hnd (sublist_take _ _))|]. split.
  - intros t Ht. apply theme_count_pos_is_theme with texts, ranked_themes_elem.
    eapply elem_of_sublist; [done|apply sublist_take].
  - intros Hk t. rewrite Hn by lia. pose proof (ranked_themes_length texts).
    rewrite take_ge by lia. apply ranked_themes_elem.
Qed.

(** When the loops are over, the dict [counts] has the keys of [THEMES] in
    their order, and each value lies between 0 and the number of texts: a
    text counts once for a theme, however many of its keywords it contains. *)
Theorem theme_counts_bounds (texts : list pystr) :
  let counts := count_texts THEMES texts ((λ e, (e.1, 0%Z)) <$> THEMES) in
  counts.*1 = THEMES.*1 ∧
  ∀ name v, (name, v) ∈ counts →
    v = theme_count texts name ∧ (0 ≤ v ≤ Z.of_nat (length texts))%Z.
Proof.
  intros counts. subst counts. rewrite counts_final. split.
  - rewrite <- list_fmap_compose. by apply list_fmap_ext.
  - intros name v (e & [= -> ->] & He)%list_elem_of_fmap. split; [done|].
    unfold theme_count. destruct (keys_of THEMES e.1) as [keys|]; [|lia].
    split; [apply match_count_nonneg|apply match_count_le].
Qed.
End RankerMore.

Lemma top_themes_permutation_witness :
  top_themes (H:=ascii_db) [str "jobs"; str "China"] 2
  = top_themes (H:=ascii_db) [str "China"; str "jobs"] 2.
Proof.
  apply (top_themes_permutation (H:=ascii_db)). apply Permutation_swap.
Defined.

Lemma top_themes_negative_witness :
  top_themes (H:=ascii_db) [str "China raised prices, jobs lost"] (-2)
  = [str "inflation/prices"].
Proof.
  rewrite (proj1 (top_themes_negative (H:=ascii_db) _ (-2)%Z ltac:(lia))).
  vm_compute. reflexivity.
Defined.

(** ** Aggregator, continued *)

Lemma percentages_range_witness :
  (0 ≤ neu_pct (percentages (mkCounts 2 1 0)) ≤ 100)%Z.
Proof. apply (percentages_range (mkCounts 2 1 0)); simpl; lia. Defined.

(** The neutral percentage is the remainder: with at least one post it is
    the floor of the neutral share plus 0, 1 or 2 points. *)
Theorem neutral_remainder (c : Counts) :
  (0 ≤ n_positive c)%Z → (0 ≤ n_negative c)%Z → (0 ≤ n_neutral c)%Z →
  (1 ≤ n_positive c + n_negative c + n_neutral c)%Z →
  let total := (n_positive c + n_negative c + n_neutral c)%Z in
  (floor_div (100 * n_neutral c) total ≤ neu_pct (percentages c)
   ≤ floor_div (100 * n_neutral c) total + 2)%Z.
Proof.
  destruct c as [p n u]. simpl. intros Hp Hn Hu Ht.
  rewrite Z.max_r by lia. set (T := (p + n + u)%Z) in *.
  assert (HT : (0 < T)%Z) by lia.
  pose proof (floor_div_is_floor (100 * p) T HT) as [Hp1 Hp2].
  pose proof (floor_div_is_floor (100 * n) T HT) as [Hn1 Hn2].
  pose proof (floor_div_is_floor (100 * u) T HT) as [Hu1 Hu2].
  set (a := floor_div (100 * p) T) in *. set (b := floor_div (100 * n) T) in *.
  set (d := floor_div (100 * u) T) in *.
  assert (E : (100 * T = 100 * p + 100 * n + 100 * u)%Z) by (subst T; lia).
  split.
  - assert ((a + b + d) * T ≤ 100 * T)%Z by nia. nia.
  - assert (100 * T < (a + b + d + 3) * T)%Z by nia. nia.
Qed.

Lemma neutral_remainder_witness :
  let c := mkCounts 34 35 34 in
  skew_of c = skew_negative ∧
  percentages c = mkPct 33 33 34 ∧
  (floor_div (100 * 34) 103 ≤ neu_pct (percentages c) ≤ floor_div (100 * 34) 103 + 2)%Z.
Proof.
  intros c. split; [reflexivity|]. split; [reflexivity|].
  apply (neutral_remainder c); simpl; lia.
Defined.

(** The skew label agrees with the two floored percentages: a negative skew
    never shows fewer negative than positive points, and conversely. *)
Theorem skew_agrees_with_percentages (c : Counts) :
  (0 ≤ n_positive c)%Z → (0 ≤ n_negative c)%Z → (0 ≤ n_neutral c)%Z →
  (skew_of c = skew_negative → (pos_pct (percentages c) ≤ neg_pct (percentages c))%Z) ∧
  (skew_of c = skew_positive → (neg_pct (percentages c) ≤ pos_pct (percentages c))%Z).
Proof.
  intros Hp Hn Hu. destruct c as [p n u]. simpl in *.
  unfold skew_of, floor_div. simpl.
  destruct (Z.gtb_spec n (p `max` u)); [|destruct (Z.gtb_spec p (n `max` u))];
    (split; intros Hs; try discriminate); apply Z.div_le_mono; lia.
Qed.

Lemma skew_agrees_with_percentages_witness :
  skew_of (mkCounts 1 3 2) = skew_negative ∧
  (pos_pct (percentages (mkCounts 1 3 2)) ≤ neg_pct (percentages (mkCounts 1 3 2)))%Z.
Proof.
  split; [reflexivity|].
  apply (skew_agrees_with_percentages (mkCounts 1 3 2)); simpl; (lia || reflexivity).
Defined.

(** ** The run, continued *)

Lemma tally_snoc s l x :
  tally s (l ++ [x]) = (tally s l + if stance_eqb s x then 1 else 0)%Z.
Proof.
  induction l as [|y l IH]; simpl; [destruct (stance_eqb s x); lia|].
  rewrite IH. lia.
Qed.

Section RunMore.
Context `{CharDB}.

Lemma classify_all_spec sia tweets :
  classify_all sia tweets =
  ((λ t, mkClassified (handle t) (text t) (classify_stance (text t) sia)) <$> tweets,
   let stances := (λ t, classify_stance (text t) sia) <$> tweets in
   mkCounts (tally positive_stance stances) (tally negative_stance stances)
            (tally neutral_stance stances)).
Proof.
  unfold classify_all.
  induction tweets as [|t tweets IH] using rev_ind; [done|].
  rewrite foldl_snoc, IH. cbn zeta. cbn [fst snd]. rewrite !fmap_app. simpl.
  f_equal.
  rewrite !tally_snoc. destruct (classify_stance (text t) sia); simpl; f_equal; lia.
Qed.

(** A completed run writes the header and then one row for each post, in
    the order of extraction, with the stance that [classify_stance] gives
    its text; the counts it prints are the tallies of those stances and add
    up to the number of posts. *)
Theorem main_export (sia : SentimentIntensityAnalyzer) (b : Browser) (tweets : list Tweet) :
  marker_count (load_results b) ≠ 0 →
  scrape_tweets (load_results b) = Returned tweets →
  ∃ r, main sia b = Completed r ∧
       csv_rows r = csv_header ::
         ((λ t, [handle t; text t; stance_str (classify_stance (text t) sia)]) <$> tweets) ∧
       collected r = length tweets ∧
       (let stances := (λ t, classify_stance (text t) sia) <$> tweets in
        final_counts r = mkCounts (tally positive_stance stances)
                                  (tally negative_stance stances)
                                  (tally neutral_stance stances)) ∧
       (n_positive (final_counts r) + n_negative (final_counts r)
        + n_neutral (final_counts r))%Z = Z.of_nat (length tweets).
Proof.
  intros Hnz Hs. unfold main. apply Nat.eqb_neq in Hnz. rewrite Hnz, Hs.
  pose proof (classify_all_counts sia tweets) as (_ & _ & _ & _ & Hsum).
  rewrite classify_all_spec in Hsum |- *. cbn zeta in *. cbn [fst snd] in Hsum.
  eexists. split; [done|]. simpl.
  split; [by rewrite <- list_fmap_compose|]. split; [done|]. split; [done|exact Hsum].
Qed.

(** When the desktop endpoint shows a content marker the mobile endpoint is
    not visited: the loaded page does not depend on it. *)
Theorem load_results_desktop_only (b : Browser) (other : Page) :
  marker_count (goto b desktop) ≠ 0 →
  load_results (mkBrowser (λ url, if decide (url = desktop) then goto b desktop else other)
                          (page_down b))
  = load_results b.
Proof.
  intros Hnz. unfold load_results. cbn [goto page_down].
  rewrite decide_True by done.
  apply Nat.eqb_neq in Hnz. by rewrite Hnz.
Qed.

Lemma iter_page_down_markers (b : Browser) n page :
  (∀ p, marker_count p ≠ 0 → marker_count (page_down b p) ≠ 0) →
  marker_count page ≠ 0 → marker_count (Nat.iter n (page_down b) page) ≠ 0.
Proof. intros Hkeep Hp. induction n as [|n IH]; simpl; [done|]. by apply Hkeep. Qed.

(** If scrolling never empties a page that shows content markers, a marker
    at either endpoint is enough for the run not to be gated. *)
Theorem main_not_gated (sia : SentimentIntensityAnalyzer) (b : Browser) :
  (∀ p, marker_count p ≠ 0 → marker_count (page_down b p) ≠ 0) →
  marker_count (goto b desktop) ≠ 0 ∨ marker_count (goto b mobile) ≠ 0 →
  main sia b ≠ ContentUnavailable.
Proof.
  intros Hkeep Hsome.
  assert (Hm : marker_count (load_results b) ≠ 0).
  { unfold load_results.
    destruct (Nat.eqb_spec (marker_count (goto b desktop)) 0) as [Hz|Hnz];
      apply iter_page_down_markers; try done. by destruct Hsome. }
  unfold main. apply Nat.eqb_neq in Hm. rewrite Hm.
  destruct (scrape_tweets _) as [tweets|]; [|done].
  by destruct (classify_all sia tweets).
Qed.
End RunMore.

Lemma main_export_witness :
  let sia := {| polarity_compound := λ _, 0%Q |} in
  let page := mkPage [] [Returned (str "Tariffs are good for steel towns")] in
  let b := mkBrowser (λ _, page) id in
  ∃ r, main (H:=ascii_db) sia b = Completed r ∧
       csv_rows r = [csv_header;
                     [str "@unknown"; str "Tariffs are good for steel towns"; str "positive"]] ∧
       final_counts r = mkCounts 1 0 0.
Proof.
  intros sia page b.
  assert (Hm : marker_count (load_results b) ≠ 0) by (vm_compute; discriminate).
  assert (Hs : scrape_tweets (H:=ascii_db) (load_results b)
               = Returned [mkTweet UNKNOWN (str "Tariffs are good for steel towns")])
    by (vm_compute; reflexivity).
  destruct (main_export (H:=ascii_db) sia b _ Hm Hs) as (r & Hr & Hcsv & _ & Hc & _).
  exists r. split; [exact Hr|]. split; [exact Hcsv|exact Hc].
Defined.

Lemma load_results_desktop_only_witness :
  let page := mkPage [] [Returned (str "hello")] in
  let b := mkBrowser (λ _, page) id in
  load_results (mkBrowser (λ url, if decide (url = desktop) then page else mkPage [] []) id)
  = load_results b.
Proof.
  intros page b.
  apply (load_results_desktop_only b (mkPage [] [])). vm_compute. discriminate.
Defined.

Lemma main_not_gated_witness :
  let page := mkPage [] [Returned (str "hello")] in
  let b := mkBrowser (λ url, if decide (url = mobile) then page else mkPage [] []) id in
  main (H:=ascii_db) {| polarity_compound := λ _, 0%Q |} b ≠ ContentUnavailable.
Proof.
  intros page b. apply (main_not_gated (H:=ascii_db)).
  - intros p Hp. exact Hp.
  - right. vm_compute. discriminate.
Defined.

(** Scrolling comes before the check: a page that loses its markers while
    it is scrolled is reported as gated although the endpoint had loaded. *)
Example main_gated_after_scroll :
  let loaded := mkPage [] [Returned (str "Tariffs are good for steel towns")] in
  let b := mkBrowser (λ _, loaded) (λ _, mkPage [] []) in
  marker_count (goto b desktop) ≠ 0 ∧
  main (H:=ascii_db) {| polarity_compound := λ _, 0%Q |} b = ContentUnavailable.
Proof. split; [vm_compute; discriminate|reflexivity]. Qed.

(** ** Substring test *)

Lemma startswith_spec s p : startswith s p = true ↔ ∃ b, s = p ++ b.
Proof.
  revert s. induction p as [|a p IH]; intros s.
  - destruct s; simpl; (split; [eauto|done]).
  - destruct s as [|c s]; simpl.
    + split; [done|]. by intros (b & ?).
    + rewrite andb_true_iff, N.eqb_eq, IH. split.
      * intros (-> & b & ->). eauto.
      * intros (b & [= -> ->]). eauto.
Qed.

Lemma str_in_spec key s : str_in key s = true ↔ ∃ a b, s = a ++ key ++ b.
Proof.
  induction s as [|c s IH]; cbn [str_in].
  - rewrite orb_false_r, startswith_spec. split.
    + intros (b & ->). by exists [], b.
    + intros (a & b & Heq). symmetry in Heq.
      apply app_eq_nil in Heq as [-> Heq]. apply app_eq_nil in Heq as [-> ->].
      by exists [].
  - rewrite orb_true_iff, startswith_spec, IH. split.
    + intros [(b & ->)|(a & b & ->)]; [by exists [], b|by exists (c :: a), b].
    + intros ([|d a] & b & Heq); simpl in Heq.
      * left. eauto.
      * right. injection Heq as -> ->. eauto.
Qed.

(** ** Login signal *)

(** A cookie is a login signal exactly when its name is one of the two
    session cookies and its domain contains ["x.com"] somewhere; a cookie
    without a name or without a domain never is. *)
Theorem is_login_cookie_spec (c : Cookie) :
  is_login_cookie c = true ↔
  (cookie_name c = Some (str "auth_token") ∨ cookie_name c = Some (str "ct0")) ∧
  ∃ d a b, cookie_domain c = Some d ∧ d = a ++ str "x.com" ++ b.
Proof.
  unfold is_login_cookie. rewrite andb_true_iff, str_in_spec. split.
  - intros [Hname (a & b & Hd)]. split.
    + destruct (cookie_name c) as [n|]; [|done].
      apply bool_decide_eq_true in Hname.
      apply elem_of_cons in Hname as [->|Hname]; [by left|].
      apply list_elem_of_singleton in Hname as ->. by right.
    + destruct (cookie_domain c) as [d|]; [by exists d, a, b|].
      exfalso. change (default [] None) with (@nil N) in Hd.
      symmetry in Hd. apply app_eq_nil in Hd as [_ Hd].
      apply app_eq_nil in Hd as [Hd _]. by vm_compute in Hd.
  - intros [Hname (d & a & b & -> & ->)]. split; [|by exists a, b].
    destruct Hname as [-> | ->]; apply bool_decide_eq_true; set_solver.
Qed.

Lemma wait_loop_step polls r i :
  wait_loop polls (S r) i =
  match poll_signal (polls i) with
  | Returned true => Returned (mkWaited true i)
  | Returned false => wait_loop polls r (S i)
  | Raised => Raised
  end.
Proof.
  cbn [wait_loop]. unfold poll_signal.
  destruct (cookie_signal (polls i)); [done|].
  by destruct (selector_signal (polls i) LOGIN_SELECTORS) as [[]|].
Qed.

Lemma wait_loop_detects polls r i j :
  wait_loop polls r i = Returned (mkWaited true j) ↔
  i ≤ j < i + r ∧ poll_signal (polls j) = Returned true ∧
  ∀ m, i ≤ m < j → poll_signal (polls m) = Returned false.
Proof.
  revert i. induction r as [|r IH]; intros i.
  - simpl. split; [done|lia].
  - rewrite wait_loop_step. destruct (poll_signal (polls i)) as [[]|] eqn:E.
    + split.
      * intros [= <-]. split; [lia|]. split; [done|]. lia.
      * intros (Hj & Hsig & Hq). destruct (decide (i = j)) as [->|Hne]; [done|].
        specialize (Hq i ltac:(lia)). congruence.
    + rewrite IH. split.
      * intros (Hj & Hsig & Hq). split; [lia|]. split; [done|].
        intros m Hm. destruct (decide (m = i)) as [->|]; [done|]. apply Hq. lia.
      * intros (Hj & Hsig & Hq). destruct (decide (i = j)) as [->|Hne]; [congruence|].
        split; [lia|]. split; [done|]. intros m Hm. apply Hq. lia.
    + split; [done|]. intros (Hj & Hsig & Hq).
      destruct (decide (i = j)) as [->|Hne]; [congruence|].
      specialize (Hq i ltac:(lia)). congruence.
Qed.

Lemma wait_loop_timeout polls r i j :
  wait_loop polls r i = Returned (mkWaited false j) ↔
  j = i + r ∧ ∀ m, i ≤ m < i + r → poll_signal (polls m) = Returned false.
Proof.
  revert i. induction r as [|r IH]; intros i.
  - simpl. split.
    + intros [= <-]. split; [lia|]. lia.
    + intros [-> _]. do 2 f_equal. lia.
  - rewrite wait_loop_step. destruct (poll_signal (polls i)) as [[]|] eqn:E.
    + split; [done|]. intros [_ Hq]. specialize (Hq i ltac:(lia)). congruence.
    + rewrite IH. split.
      * intros [-> Hq]. split; [lia|]. intros m Hm.
        destruct (decide (m = i)) as [->|]; [done|]. apply Hq. lia.
      * intros [-> Hq]. split; [lia|]. intros m Hm. apply Hq. lia.
    + split; [done|]. intros [_ Hq]. specialize (Hq i ltac:(lia)). congruence.
Qed.

Lemma wait_loop_raises polls r i :
  wait_loop polls r i = Raised ↔
  ∃ j, i ≤ j < i + r ∧ poll_signal (polls j) = Raised ∧
       ∀ m, i ≤ m < j → poll_signal (polls m) = Returned false.
Proof.
  revert i. induction r as [|r IH]; intros i.
  - simpl. split; [done|]. intros (j & ? & _). lia.
  - rewrite wait_loop_step. destruct (poll_signal (polls i)) as [[]|] eqn:E.
    + split; [done|]. intros (j & Hj & Hsig & Hq).
      destruct (decide (i = j)) as [->|Hne]; [congruence|].
      specialize (Hq i ltac:(lia)). congruence.
    + rewrite IH. split.
      * intros (j & Hj & Hsig & Hq). exists j. split; [lia|]. split; [done|].
        intros m Hm. destruct (decide (m = i)) as [->|]; [done|]. apply Hq. lia.
      * intros (j & Hj & Hsig & Hq). destruct (decide (i = j)) as [->|Hne]; [congruence|].
        exists j. split; [lia|]. split; [done|]. intros m Hm. apply Hq. lia.
    + split; [|done]. intros _. exists i. split; [lia|]. split; [done|]. lia.
Qed.

(** [wait_for_login] returns [True] at the first iteration, among the first
    [seconds], that shows a signal, after one sleep for each iteration
    before it. *)
Theorem wait_for_login_detects (polls : nat → Poll) (seconds : Z) (i : nat) :
  wait_for_login polls seconds = Returned (mkWaited true i) ↔
  i < Z.to_nat seconds ∧ poll_signal (polls i) = Returned true ∧
  ∀ m, m < i → poll_signal (polls m) = Returned false.
Proof.
  unfold wait_for_login. rewrite wait_loop_detects. split.
  - intros (Hi & Hs & Hq). split; [lia|]. split; [done|]. intros m Hm. apply Hq. lia.
  - intros (Hi & Hs & Hq). split; [lia|]. split; [done|]. intros m Hm. apply Hq. lia.
Qed.

(** The wait is bounded: whenever it returns it has slept at most [seconds]
    times, it returns [False] only after all [seconds] iterations showed no
    signal, and with [seconds <= 0] it returns [False] at once. *)
Theorem wait_for_login_bounded (polls : nat → Poll) (seconds : Z) :
  (∀ w, wait_for_login polls seconds = Returned w →
        slept w ≤ Z.to_nat seconds ∧
        (detected w = false →
         slept w = Z.to_nat seconds ∧
         ∀ m, m < Z.to_nat seconds → poll_signal (polls m) = Returned false)) ∧
  ((seconds ≤ 0)%Z → wait_for_login polls seconds = Returned (mkWaited false 0)).
Proof.
  split.
  - intros [[] j] Hw; simpl.
    + unfold wait_for_login in Hw. apply wait_loop_detects in Hw as (Hj & _).
      split; [lia|done].
    + unfold wait_for_login in Hw. apply wait_loop_timeout in Hw as [-> Hq].
      split; [lia|]. intros _. split; [lia|]. intros m Hm. apply Hq. lia.
  - intros Hs. unfold wait_for_login. by replace (Z.to_nat seconds) with 0 by lia.
Qed.

Lemma selector_signal_raised p sels :
  selector_signal p sels = Raised → ∃ sel, sel ∈ sels ∧ poll_count p sel = Raised.
Proof.
  induction sels as [|sel sels IH]; simpl; [done|].
  destruct (poll_count p sel) as [n|] eqn:E; simpl.
  - destruct (0 <? n); [done|]. intros (s & Hs & Hr)%IH. exists s. split; [by right|done].
  - intros _. exists sel. split; [left|done].
Qed.

(** The wait raises only through a selector count: at the first iteration
    that does not fall through, no login cookie was seen and the count of one
    of the five selectors raised. An error of the cookie query alone never
    ends the wait. *)
Theorem wait_for_login_raises (polls : nat → Poll) (seconds : Z) :
  wait_for_login polls seconds = Raised →
  ∃ i sel, i < Z.to_nat seconds ∧ cookie_signal (polls i) = false ∧
           sel ∈ LOGIN_SELECTORS ∧ poll_count (polls i) sel = Raised ∧
           ∀ m, m < i → poll_signal (polls m) = Returned false.
Proof.
  unfold wait_for_login. intros (i & Hi & Hsig & Hq)%wait_loop_raises.
  unfold poll_signal in Hsig. destruct (cookie_signal (polls i)) eqn:Ec; [done|].
  apply selector_signal_raised in Hsig as (sel & Hsel & Hr).
  exists i, sel. split; [lia|]. repeat (split; [done|]). intros m Hm. apply Hq. lia.
Qed.

Lemma wait_loop_cookie_fault polls r i :
  wait_loop
    (λ i, mkPoll (match poll_cookies (polls i) with
                  | Returned cookies => Returned cookies
                  | Raised => Returned []
                  end) (poll_count (polls i))) r i
  = wait_loop polls r i.
Proof.
  revert i. induction r as [|r IH]; intros i; [done|].
  rewrite !wait_loop_step, IH. unfold poll_signal, cookie_signal. simpl.
  by destruct (poll_cookies (polls i)).
Qed.

(** An error of the cookie query is swallowed: the wait goes as if the query
    had returned no cookie. *)
Theorem wait_for_login_cookie_fault (polls : nat → Poll) (seconds : Z) :
  wait_for_login
    (λ i, mkPoll (match poll_cookies (polls i) with
                  | Returned cookies => Returned cookies
                  | Raised => Returned []
                  end) (poll_count (polls i))) seconds
  = wait_for_login polls seconds.
Proof. apply wait_loop_cookie_fault. Qed.

(** ** Configuration *)



Example configure_creates_context :
  let env : Env := λ name,
    if decide (name = str "BROWSERBASE_API_KEY") then Some (str "key")
    else if decide (name = str "BROWSERBASE_PROJECT_ID") then Some (str "proj")
    else if decide (name = str "BB_CONTEXT_ID") then Some []
    else None in
  configure env (λ proj, str "ctx-of-" ++ proj)
  = Ready (mkConfig (str "key") (str "proj") (str "ctx-of-proj") true).
Proof. vm_compute. reflexivity. Qed.

Lemma wait_for_login_raises_witness :
  let quiet := mkPoll (Returned []) (λ _, Returned 0) in
  let broken := mkPoll Raised (λ _, Raised) in
  let polls := λ i : nat, if decide (i = 2) then broken else quiet in
  wait_for_login polls 25 = Raised ∧
  ∃ i sel, i < Z.to_nat 25 ∧ cookie_signal (polls i) = false ∧
           sel ∈ LOGIN_SELECTORS ∧ poll_count (polls i) sel = Raised ∧
           ∀ m, m < i → poll_signal (polls m) = Returned false.
Proof.
  intros quiet broken polls.
  assert (Hr : wait_for_login polls 25 = Raised) by (vm_compute; reflexivity).
  split; [exact Hr|]. exact (wait_for_login_raises polls 25 Hr).
Defined.

Example wait_for_login_cookie_after_3 :
  let quiet := mkPoll (Returned []) (λ _, Returned 0) in
  let logged := mkPoll (Returned [mkCookie (Some (str "ct0")) (Some (str ".x.com"))])
                       (λ _, Raised) in
  wait_for_login (λ i, if decide (i = 3) then logged else quiet) 25
  = Returned (mkWaited true 3).
Proof. vm_compute. reflexivity. Qed.

Example wait_for_login_times_out :
  wait_for_login (λ _, mkPoll Raised (λ _, Returned 0)) 25 = Returned (mkWaited false 25).
Proof. vm_compute. reflexivity. Qed.

Example login_cookie_domain_is_substring :
  is_login_cookie (mkCookie (Some (str "auth_token")) (Some (str "netflix.com"))) = true ∧
  is_login_cookie (mkCookie (Some (str "auth_token")) None) = false ∧
  is_login_cookie (mkCookie None (Some (str ".x.com"))) = false.
Proof. repeat split; vm_compute; reflexivity. Qed.

Lemma run_percentages_float_witness :
  let sia := {| polarity_compound := λ _, 0%Q |} in
  let page := mkPage [] [Returned (str "Tariffs are good for steel towns");
                         Returned (str "Nothing to see in this one here");
                         Returned (str "Another quiet line about trade")] in
  let out := [mkTweet UNKNOWN (str "Tariffs are good for steel towns");
              mkTweet UNKNOWN (str "Nothing to see in this one here");
              mkTweet UNKNOWN (str "Another quiet line about trade")] in
  scrape_tweets (H:=ascii_db) page = Returned out ∧
  pos_pct (percentages (classify_all (H:=ascii_db) sia out).2) = 33%Z ∧
  floor_is 33 (true_div 100 3) = true.
Proof.
  intros sia page out.
  assert (Hout : scrape_tweets (H:=ascii_db) page = Returned out) by (vm_compute; reflexivity).
  split; [exact Hout|]. split; [vm_compute; reflexivity|].
  exact (proj1 (run_percentages_float (H:=ascii_db) sia page out Hout)).
Defined.

Lemma top_themes_top_k_witness :
  let texts := [str "China prices"; str "inflation and jobs"; str "CCP"] in
  ranks_before (H:=ascii_db) texts (str "china/geopolitics") (str "jobs/manufacturing").
Proof.
  intros texts.
  apply (top_themes_top_k (H:=ascii_db) texts 2 (str "jobs/manufacturing")).
  - lia.
  - vm_compute. reflexivity.
  - apply (bool_decide_unpack _). vm_compute. reflexivity.
  - apply (bool_decide_unpack _). vm_compute. reflexivity.
Defined.
